(** * y-socket.io: the document registry and the persistence adaptor

    A shallow embedding of [src/server/y-socket-io.ts]: class [YSocketIO]
    (the registry of documents, the authentication middleware, the
    connection and disconnect handlers) and class
    [GenericPersistenceAdaptor] (the chain of transactions on the store and
    the compaction of a document's log).

    - A promise is modelled by how it settles ([outcome]); an asynchronous
      function run without anything in between by a state-passing function
      that returns an outcome.
    - The promise chain [this.tr] of the adaptor is a list of tasks, and the
      event loop a schedule that submits tasks and gives them turns in any
      order; the functions run in a transaction are trees of calls on the
      store.
    - Objects that are shared (the documents) live in a heap and are
      referred to by address; [initDocument] is split where it awaits
      [bindState], so that two handlers can be interleaved.
    - The merge engine (yjs), the store behind the adaptor and the provider
      of the server are interfaces; [Sample] gives instances to compute
      with.

    First the definitions, then the facts about the chain, then the claims
    C1 to C10 and their concrete runs. *)

From stdpp Require Import base option list gmap strings.
From Stdlib Require Import ZArith.

Set Default Proof Using "Type".
Set Warnings "-clear-no-such-hyp".

(** ** Promises *)

(** How a promise settles. *)
Inductive outcome (A : Type) : Type :=
| Fulfilled (a : A)
| Rejected (err : string).
Arguments Fulfilled {A} a.
Arguments Rejected {A} err.

(** ** The merge engine (yjs), an external library

    The server only creates documents, applies updates and encodes a
    document as one update; it never looks inside an update. Stored updates
    are ones the engine produced or accepted, so [applyUpdate] is total. *)
Module Y.
Class Engine : Type := {
  Doc : Type;
  Update : Type;
  newDoc : Doc;
  applyUpdate : Doc → Update → Doc;
  encodeStateAsUpdate : Doc → Update
}.
End Y.

(** The calls of the [GenericPersistence] interface, as they appear in a trace. *)
Inductive DbCall `{Y.Engine} : Type :=
| GetUpdates (docName : string)
| StoreUpdate (docName : string) (update : Y.Update)
| FlushDocument (docName : string) (state : Y.Update).

(** What each call resolves with. *)
Definition resp `{Y.Engine} (c : DbCall) : Type :=
  match c with
  | GetUpdates _ => list Y.Update
  | StoreUpdate _ _ => unit
  | FlushDocument _ _ => unit
  end.

(** [interface GenericPersistence]: a store with a state of its own, each
    method of which may reject. *)
Class GenericPersistence `{Y.Engine} (S : Type) : Type := {
  db_getUpdates : string → S → outcome (list Y.Update) * S;
  db_storeUpdate : string → Y.Update → S → outcome unit * S;
  db_flushDocument : string → Y.Update → S → outcome unit * S
}.

Definition perform `{Y.Engine} {S : Type} `{!GenericPersistence S}
    (c : DbCall) : S → outcome (resp c) * S :=
  match c return S → outcome (resp c) * S with
  | GetUpdates n => db_getUpdates n
  | StoreUpdate n u => db_storeUpdate n u
  | FlushDocument n st => db_flushDocument n st
  end.

Definition is_flush `{Y.Engine} (c : DbCall) : bool :=
  match c with FlushDocument _ _ => true | _ => false end.

(** Number of consolidated snapshot writes in a trace. *)
Definition flush_count `{Y.Engine} (cs : list DbCall) : nat :=
  length (filter is_flush cs).

(** ** GenericPersistenceAdaptor *)
Module GenericPersistenceAdaptor.
Section Adaptor.
Context `{Y.Engine} {S : Type} `{!GenericPersistence S}.

(** What a transaction resolves with: a [Y.Doc] ([getYDoc]) or
    [undefined] ([storeUpdate]). *)
Inductive value : Type :=
| VDoc (d : Y.Doc)
| VVoid.

(** A transaction function [f : (db) => Promise<T>]: it returns, throws,
    or awaits a call on the store and goes on with the call's result. *)
Inductive tx : Type :=
| TxReturn (v : value)
| TxThrow (err : string)
| TxCall (c : DbCall) (k : resp c → tx).

(** The store, the trace of calls made on it and what [console.warn]
    printed. *)
Record world : Type := World {
  db : S;
  calls : list DbCall;
  console : list string
}.

Definition call_db (c : DbCall) (w : world) : outcome (resp c) * world :=
  let '(o, s') := perform c (db w) in
  (o, {| db := s'; calls := calls w ++ [c]; console := console w |}).

Definition warn (err : string) (w : world) : world :=
  {| db := db w; calls := calls w; console := console w ++ [err] |}.

(** [await f(this.db)]: the first rejected call rejects the whole
    function; nothing in [f] catches. *)
Fixpoint run_f (f : tx) (w : world) : outcome value * world :=
  match f with
  | TxReturn v => (Fulfilled v, w)
  | TxThrow e => (Rejected e, w)
  | TxCall c k =>
      match call_db c w with
      | (Fulfilled r, w') => run_f (k r) w'
      | (Rejected e, w') => (Rejected e, w')
      end
  end.

(** The body of the task created by [_transact], after [await currTr]:
    [res = null; try { res = await f(db) } catch (err) { console.warn } ;
    return res]. *)
Definition transact_body (f : tx) (w : world) : option value * world :=
  match run_f f w with
  | (Fulfilled v, w') => (Some v, w')
  | (Rejected e, w') => (None, warn e w')
  end.

(** *** The promise chain *)

Inductive status : Type :=
| Waiting                                (* suspended at [await currTr] *)
| Running (p : tx)                       (* inside [await f(this.db)] *)
| Done (res : outcome (option value)).   (* settled *)

Record slot : Type := Slot { slot_f : tx; slot_st : status }.

Record t : Type := Adaptor {
  env : world;
  tr : list slot;      (* every promise [this.tr] ever was, oldest first *)
  trimSize : Z
}.

(** [constructor(db, trimSize = 500)]; [this.tr = Promise.resolve()]. *)
Definition new (s : S) (trim : option Z) : t :=
  {| env := World s [] []; tr := []; trimSize := default 500%Z trim |}.

Definition is_done (s : slot) : bool :=
  match slot_st s with Done _ => true | _ => false end.
Definition is_waiting (s : slot) : bool :=
  match slot_st s with Waiting => true | _ => false end.
Definition is_running (s : slot) : bool :=
  match slot_st s with Running _ => true | _ => false end.

(** The error a task's promise was rejected with, if it was. *)
Definition failure (s : slot) : option string :=
  match slot_st s with Done (Rejected e) => Some e | _ => None end.

(** What a settled task's promise settled with. *)
Definition settlement (s : slot) : outcome (option value) :=
  match slot_st s with Done o => o | _ => Fulfilled None end.

(** [_transact(f)]: chain a new task behind [this.tr] and return its
    promise (its position in the chain). *)
Definition _transact (f : tx) (a : t) : nat * t :=
  (length (tr a),
   {| env := env a; tr := tr a ++ [Slot f Waiting]; trimSize := trimSize a |}).

(** How [currTr] of the task at position [i] has settled, if it has:
    fulfilled ([Some None]) or rejected with [e] ([Some (Some e)]). The first
    task waits for [Promise.resolve()]. *)
Definition currTr (i : nat) (l : list slot) : option (option string) :=
  match i with
  | 0 => Some None
  | Datatypes.S j => s ← l !! j; if is_done s then Some (failure s) else None
  end.

(** One turn of the event loop on the task at position [i]. A rejected
    [currTr] makes [await currTr] throw outside the [try], so the task
    rejects with it; a rejection of [f] is caught. *)
Definition advance (i : nat) (a : t) : option t :=
  s ← tr a !! i;
  match slot_st s with
  | Done _ => None
  | Waiting =>
      match currTr i (tr a) with
      | Some None =>
          Some {| env := env a;
                  tr := <[i := Slot (slot_f s) (Running (slot_f s))]> (tr a);
                  trimSize := trimSize a |}
      | Some (Some e) =>
          Some {| env := env a;
                  tr := <[i := Slot (slot_f s) (Done (Rejected e))]> (tr a);
                  trimSize := trimSize a |}
      | None => None
      end
  | Running (TxReturn v) =>
      Some {| env := env a;
              tr := <[i := Slot (slot_f s) (Done (Fulfilled (Some v)))]> (tr a);
              trimSize := trimSize a |}
  | Running (TxThrow e) =>
      Some {| env := warn e (env a);
              tr := <[i := Slot (slot_f s) (Done (Fulfilled None))]> (tr a);
              trimSize := trimSize a |}
  | Running (TxCall c k) =>
      match call_db c (env a) with
      | (Fulfilled r, w') =>
          Some {| env := w';
                  tr := <[i := Slot (slot_f s) (Running (k r))]> (tr a);
                  trimSize := trimSize a |}
      | (Rejected e, w') =>
          Some {| env := warn e w';
                  tr := <[i := Slot (slot_f s) (Done (Fulfilled None))]> (tr a);
                  trimSize := trimSize a |}
      end
  end.

Inductive action : Type :=
| Submit (f : tx)
| Step (i : nat).

Definition act (x : action) (a : t) : option t :=
  match x with
  | Submit f => Some (snd (_transact f a))
  | Step i => advance i a
  end.

(** A schedule: submissions and turns in any order the event loop allows. *)
Fixpoint exec (sched : list action) (a : t) : option t :=
  match sched with
  | [] => Some a
  | x :: rest => a' ← act x a; exec rest a'
  end.

(** *** Running to completion *)

(** A task run to its end; [prev] is the error [currTr] was rejected
    with, if it was. *)
Definition settle (prev : option string) (s : slot) (w : world) : slot * world :=
  match slot_st s with
  | Done _ => (s, w)
  | Running p =>
      let '(r, w') := transact_body p w in
      (Slot (slot_f s) (Done (Fulfilled r)), w')
  | Waiting =>
      match prev with
      | None =>
          let '(r, w') := transact_body (slot_f s) w in
          (Slot (slot_f s) (Done (Fulfilled r)), w')
      | Some e => (Slot (slot_f s) (Done (Rejected e)), w)
      end
  end.

Fixpoint settle_all (prev : option string) (l : list slot) (w : world)
    : list slot * world :=
  match l with
  | [] => ([], w)
  | s :: l' =>
      let '(s', w1) := settle prev s w in
      let '(l'', w2) := settle_all (failure s') l' w1 in
      (s' :: l'', w2)
  end.

(** [await p]: the event loop runs until the promise at position [p] has
    settled; the tasks chained behind it are left as they are. *)
Definition await (p : nat) (a : t) : outcome (option value) * t :=
  let '(l, w) := settle_all None (take (Datatypes.S p) (tr a)) (env a) in
  (from_option settlement (Fulfilled None) (l !! p),
   {| env := w; tr := l ++ drop (Datatypes.S p) (tr a); trimSize := trimSize a |}).

(** The whole chain run to completion. *)
Definition quiesce (a : t) : t :=
  let '(l, w) := settle_all None (tr a) (env a) in
  {| env := w; tr := l; trimSize := trimSize a |}.

(** The submitted functions run one after the other, each from the start. *)
Definition in_order (fs : list tx) (w : world) : list slot * world :=
  settle_all None ((λ f, Slot f Waiting) <$> fs) w.

(** The error the last promise of [l] was rejected with; [q] for an empty
    chain. *)
Definition last_failure (q : option string) (l : list slot) : option string :=
  from_option failure q (last l).

(** No promise of the chain was rejected. *)
Definition unrejected (l : list slot) : Prop :=
  Forall (λ s, failure s = None) l.

(** First in, first out: a task has left [await currTr] only if every task
    chained before it has resolved. *)
Definition fifo (l : list slot) : Prop :=
  ∀ i j si sj, l !! i = Some si → l !! j = Some sj → i < j →
    is_waiting sj = false → is_done si = true.

(** *** The provider's methods *)

(** The document a log replays to:
    [ydoc = new Y.Doc(); updates.forEach(u => Y.applyUpdate(ydoc, u))]. *)
Definition replay (updates : list Y.Update) : Y.Doc :=
  foldl Y.applyUpdate Y.newDoc updates.

(** The function [getYDoc] hands to [_transact]. *)
Definition getYDoc_tx (docName : string) (trim : Z) : tx :=
  TxCall (GetUpdates docName) (λ updates,
    let ydoc := replay updates in
    if (trim <? Z.of_nat (length updates))%Z
    then TxCall (FlushDocument docName (Y.encodeStateAsUpdate ydoc))
                (λ _, TxReturn (VDoc ydoc))
    else TxReturn (VDoc ydoc)).

(** [if (dbdoc) { return dbdoc }; return new Y.Doc()]. *)
Definition loaded_doc (dbdoc : option value) : Y.Doc :=
  match dbdoc with Some (VDoc d) => d | _ => Y.newDoc end.

(** [async getYDoc(docName, trimSize = this.trimSize)]. *)
Definition getYDoc (docName : string) (trim : option Z) (a : t)
    : outcome Y.Doc * t :=
  let '(p, a1) := _transact (getYDoc_tx docName (default (trimSize a) trim)) a in
  match await p a1 with
  | (Fulfilled dbdoc, a2) => (Fulfilled (loaded_doc dbdoc), a2)
  | (Rejected e, a2) => (Rejected e, a2)
  end.

(** [async flushDocument(docName)]. *)
Definition flushDocument (docName : string) (a : t) : outcome unit * t :=
  match getYDoc docName (Some 0%Z) a with
  | (Fulfilled _, a') => (Fulfilled (), a')
  | (Rejected e, a') => (Rejected e, a')
  end.

Definition storeUpdate_tx (docName : string) (update : Y.Update) : tx :=
  TxCall (StoreUpdate docName update) (λ _, TxReturn VVoid).

(** [async storeUpdate(docName, update)]. *)
Definition storeUpdate (docName : string) (update : Y.Update) (a : t)
    : outcome unit * t :=
  let '(p, a1) := _transact (storeUpdate_tx docName update) a in
  match await p a1 with
  | (Fulfilled _, a2) => (Fulfilled (), a2)
  | (Rejected e, a2) => (Rejected e, a2)
  end.

End Adaptor.
End GenericPersistenceAdaptor.

(** ** PersistenceProvider *)

(** [interface PersistenceProvider]: whatever the server is configured
    with; its state is threaded through, each method may reject. *)
Class PersistenceProvider `{Y.Engine} (P : Type) : Type := {
  provider_getYDoc : string → P → outcome Y.Doc * P;
  provider_storeUpdate : string → Y.Update → P → outcome unit * P;
  provider_flushDocument : string → P → outcome unit * P
}.

(** [class GenericPersistenceAdaptor implements PersistenceProvider]. *)
#[global] Instance adaptor_provider `{Y.Engine} {S : Type} `{!GenericPersistence S}
    : PersistenceProvider (GenericPersistenceAdaptor.t (S:=S)) := {
  provider_getYDoc n := GenericPersistenceAdaptor.getYDoc n None;
  provider_storeUpdate := GenericPersistenceAdaptor.storeUpdate;
  provider_flushDocument := GenericPersistenceAdaptor.flushDocument
}.

(** [socket.nsp.name.replace(/\/yjs\|/, '')]: the first occurrence of the
    pattern is removed. *)
Fixpoint replace_first (pat s : string) : string :=
  if String.prefix pat s
  then String.substring (String.length pat) (String.length s - String.length pat) s
  else match s with
       | EmptyString => EmptyString
       | String c s' => String c (replace_first pat s')
       end.

(** ** YSocketIO *)
Module YSocketIO.
Section Server.
Context `{Y.Engine} {P : Type} `{!PersistenceProvider P}.

(** Objects are referred to by their address; sockets by their id. *)
Definition ref : Type := nat.
Definition socket_id : Type := nat.

(** Modelled from the spec: class [Document] of [src/server/document.ts],
    which is not part of the sources: a named replicated state container
    with a garbage-collection flag, created empty. [stores] counts the
    ['update'] listeners that [bindState] attached to it. *)
Record Document : Type := Doc {
  name : string;
  namespace : string;
  gc : bool;
  ydoc : Y.Doc;
  stores : nat;
  destroyed : bool
}.

#[global] Instance Document_inhabited : Inhabited Document :=
  populate (Doc "" "" true Y.newDoc 0 false).

(** [socket.handshake]. *)
Definition Handshake : Type := gmap string string.

(** [interface YSocketIOConfiguration]. [authenticate] is given by how the
    awaited call settles. *)
Record YSocketIOConfiguration : Type := Config {
  gcEnabled : option bool;
  persistenceProvider : option P;
  authenticate : option (Handshake → outcome bool)
}.

(** What the observable emits. *)
Inductive Event : Type :=
| Connection (socket : socket_id) (doc : ref)
| DocumentLoaded (doc : ref)
| AllDocumentConnectionsClosed (doc : ref)
| DocumentDestroy (doc : ref).

(** What the transport tells a client that is not let in. *)
Inductive Signal : Type :=
| ConnectError (socket : socket_id) (message : string).

Record t : Type := Server {
  _documents : gmap string ref;
  persistence : option P;
  configuration : option YSocketIOConfiguration;
  (* the objects, the observers and the transport *)
  heap : gmap ref Document;
  next_ref : ref;
  emitted : list Event;
  sockets : gmap string (gset socket_id);
  listeners : gmap socket_id ref;
  sent : list Signal
}.

(** [constructor(io, configuration?)]. *)
Definition new (configuration : option YSocketIOConfiguration) : t :=
  {| _documents := ∅;
     persistence := configuration ≫= persistenceProvider;
     configuration := configuration;
     heap := ∅; next_ref := 0; emitted := []; sockets := ∅; listeners := ∅;
     sent := [] |}.

Definition set_documents (f : gmap string ref → gmap string ref) (st : t) : t :=
  Server (f (_documents st)) (persistence st) (configuration st) (heap st)
    (next_ref st) (emitted st) (sockets st) (listeners st) (sent st).
Definition set_persistence (p : option P) (st : t) : t :=
  Server (_documents st) p (configuration st) (heap st)
    (next_ref st) (emitted st) (sockets st) (listeners st) (sent st).
Definition set_heap (f : gmap ref Document → gmap ref Document) (st : t) : t :=
  Server (_documents st) (persistence st) (configuration st) (f (heap st))
    (next_ref st) (emitted st) (sockets st) (listeners st) (sent st).
Definition set_sockets
    (f : gmap string (gset socket_id) → gmap string (gset socket_id)) (st : t) : t :=
  Server (_documents st) (persistence st) (configuration st) (heap st)
    (next_ref st) (emitted st) (f (sockets st)) (listeners st) (sent st).
Definition set_listeners (f : gmap socket_id ref → gmap socket_id ref) (st : t) : t :=
  Server (_documents st) (persistence st) (configuration st) (heap st)
    (next_ref st) (emitted st) (sockets st) (f (listeners st)) (sent st).
Definition send (s : Signal) (st : t) : t :=
  Server (_documents st) (persistence st) (configuration st) (heap st)
    (next_ref st) (emitted st) (sockets st) (listeners st) (sent st ++ [s]).

(** [this.emit(...)]. *)
Definition emit (e : Event) (st : t) : t :=
  Server (_documents st) (persistence st) (configuration st) (heap st)
    (next_ref st) (emitted st ++ [e]) (sockets st) (listeners st) (sent st).

(** Modelled from the spec: the constructor of [Document], not part of the
    sources: a fresh, empty document of that name, garbage collection on. *)
Definition new_Document (nm nsp : string) (st : t) : ref * t :=
  (next_ref st,
   Server (_documents st) (persistence st) (configuration st)
     (<[next_ref st := Doc nm nsp true Y.newDoc 0 false]> (heap st))
     (Datatypes.S (next_ref st)) (emitted st) (sockets st) (listeners st) (sent st)).

Definition set_gc (g : bool) (d : Document) : Document :=
  Doc (name d) (namespace d) g (ydoc d) (stores d) (destroyed d).
Definition set_destroyed (d : Document) : Document :=
  Doc (name d) (namespace d) (gc d) (ydoc d) (stores d) true.

(** The callback [onDestroy] that [initDocument] gives every document. *)
Definition onDestroy (doc : ref) (st : t) : t :=
  emit (DocumentDestroy doc)
    (set_documents (delete (name (heap st !!! doc))) st).

(** Modelled from the spec: [Document.destroy], not part of the sources:
    it runs the [onDestroy] callback and the document is gone. *)
Definition destroy (doc : ref) (st : t) : t :=
  set_heap (alter set_destroyed doc) (onDestroy doc st).

(** [bindState] of [initPersistence], on the provider's state [p]. *)
Definition bindState (docName : string) (doc : ref) (p : P) (st : t)
    : outcome unit * P * t :=
  match provider_getYDoc docName p with
  | (Rejected e, p1) => (Rejected e, p1, st)
  | (Fulfilled persistedYdoc, p1) =>
      let newUpdates := Y.encodeStateAsUpdate (ydoc (heap st !!! doc)) in
      match provider_storeUpdate docName newUpdates p1 with
      | (Rejected e, p2) => (Rejected e, p2, st)
      | (Fulfilled _, p2) =>
          let bound d :=
            Doc (name d) (namespace d) (gc d)
              (Y.applyUpdate (ydoc d) (Y.encodeStateAsUpdate persistedYdoc))
              (Datatypes.S (stores d)) (destroyed d) in
          (Fulfilled (), p2, set_heap (alter bound doc) st)
      end
  end.

(** [writeState] of [initPersistence]. *)
Definition writeState (docName : string) (doc : ref) (p : P) : outcome unit * P :=
  provider_flushDocument docName p.

(** Where [initDocument] stands when it first gives up control. *)
Inductive resolving : Type :=
| Ready (doc : ref)       (* returned *)
| Binding (doc : ref).    (* suspended at [await this.persistence.bindState] *)

(** [this._documents.set(name, doc); this.emit('document-loaded', [doc])]. *)
Definition loaded (nm : string) (doc : ref) (st : t) : t :=
  emit (DocumentLoaded doc) (set_documents (insert nm doc) st).

(** [initDocument] up to its first suspension. *)
Definition initDocument_enter (nm nsp : string) (g : option bool) (st : t)
    : resolving * t :=
  let '(doc, st1) :=
    match _documents st !! nm with
    | Some d => (d, st)
    | None => new_Document nm nsp st
    end in
  let st2 := set_heap (alter (set_gc (default true g)) doc) st1 in
  match _documents st2 !! nm with
  | Some _ => (Ready doc, st2)
  | None =>
      match persistence st2 with
      | Some _ => (Binding doc, st2)
      | None => (Ready doc, loaded nm doc st2)
      end
  end.

(** [initDocument] from [await this.persistence.bindState(name, doc)] on. *)
Definition initDocument_bind (nm : string) (doc : ref) (st : t) : outcome ref * t :=
  match persistence st with
  | None => (Fulfilled doc, loaded nm doc st)
  | Some p =>
      match bindState nm doc p st with
      | (Fulfilled _, p', st') =>
          (Fulfilled doc, loaded nm doc (set_persistence (Some p') st'))
      | (Rejected e, p', st') => (Rejected e, set_persistence (Some p') st')
      end
  end.

(** [private async initDocument(name, namespace, gc = true)], run without
    anything else in between. *)
Definition initDocument (nm nsp : string) (g : option bool) (st : t)
    : outcome ref * t :=
  match initDocument_enter nm nsp g st with
  | (Ready doc, st') => (Fulfilled doc, st')
  | (Binding doc, st') => initDocument_bind nm doc st'
  end.

(** The rest of the ['connection'] handler: the event, then the listeners
    of the socket, which all close over [doc]. *)
Definition connected (socket : socket_id) (doc : ref) (st : t) : t :=
  set_listeners (insert socket doc) (emit (Connection socket doc) st).

(** The ['connection'] handler up to its first suspension. *)
Definition connection_enter (nsp : string) (st : t) : resolving * t :=
  initDocument_enter (replace_first "/yjs|" nsp) nsp
    (configuration st ≫= gcEnabled) st.

(** The ['connection'] handler once [bindState] has settled. *)
Definition connection_resume (socket : socket_id) (nsp : string) (doc : ref) (st : t)
    : outcome unit * t :=
  match initDocument_bind (replace_first "/yjs|" nsp) doc st with
  | (Fulfilled d, st') => (Fulfilled (), connected socket d st')
  | (Rejected e, st') => (Rejected e, st')
  end.

(** The ['connection'] handler, run without anything else in between. *)
Definition on_connection (socket : socket_id) (nsp : string) (st : t)
    : outcome unit * t :=
  match connection_enter nsp st with
  | (Ready doc, st') => (Fulfilled (), connected socket doc st')
  | (Binding doc, st') => connection_resume socket nsp doc st'
  end.

(** How the middleware ends: it calls [next()], it calls [next(err)], or
    the awaited predicate rejects and the error is thrown out of the async
    function before any call of [next], so that its promise is rejected. *)
Inductive Next : Type :=
| NextOk
| NextError (message : string)
| NextNotCalled (err : string).

(** The authentication middleware of [initialize]. *)
Definition middleware (handshake : Handshake) (st : t) : Next :=
  match configuration st ≫= authenticate with
  | None => NextOk
  | Some auth =>
      match auth handshake with
      | Fulfilled true => NextOk
      | Fulfilled false => NextError "Unauthorized"
      | Rejected e => NextNotCalled e
      end
  end.

(** [socket.nsp.fetchSockets()]. *)
Definition fetchSockets (nsp : string) (st : t) : gset socket_id :=
  default ∅ (sockets st !! nsp).

(** The socket is added to the sockets of its namespace. *)
Definition join (socket : socket_id) (nsp : string) (st : t) : t :=
  set_sockets (insert nsp ({[socket]} ∪ fetchSockets nsp st)) st.

Definition doc_of (r : resolving) : ref :=
  match r with Ready doc => doc | Binding doc => doc end.

(** The transport on an inbound connection to a namespace of the dynamic
    namespace: the socket joins and ['connection'] fires only after the
    middleware called [next()]; [next(err)] is reported to the client; when
    the middleware throws, [next] is not called: nothing is sent, the socket
    does not join, and the promise of the middleware is rejected. *)
Definition accept (socket : socket_id) (nsp : string) (handshake : Handshake)
    (st : t) : outcome unit * t :=
  match middleware handshake st with
  | NextOk => on_connection socket nsp (join socket nsp st)
  | NextError msg => (Fulfilled (), send (ConnectError socket msg) st)
  | NextNotCalled err => (Rejected err, st)
  end.

(** The ['disconnect'] listener that [initSocketListeners] gives a socket
    of namespace [nsp], closed over [doc]. *)
Definition on_disconnect (nsp : string) (doc : ref) (st : t) : outcome unit * t :=
  if decide (size (fetchSockets nsp st) = 0)
  then
    let st1 := emit (AllDocumentConnectionsClosed doc) st in
    match persistence st1 with
    | Some p =>
        match writeState (name (heap st1 !!! doc)) doc p with
        | (Fulfilled _, p') =>
            (Fulfilled (), destroy doc (set_persistence (Some p') st1))
        | (Rejected e, p') => (Rejected e, set_persistence (Some p') st1)
        end
    | None => (Fulfilled (), st1)
    end
  else (Fulfilled (), st).

(** The transport on a closing socket: it has left its namespace when
    ['disconnect'] fires; its listeners go with it. *)
Definition close (socket : socket_id) (nsp : string) (st : t) : outcome unit * t :=
  let st1 := set_sockets (insert nsp (fetchSockets nsp st ∖ {[socket]})) st in
  match listeners st1 !! socket with
  | Some doc => on_disconnect nsp doc (set_listeners (delete socket) st1)
  | None => (Fulfilled (), st1)
  end.

(** Sockets of one namespace closing one at a time. *)
Definition close_all (socks : list socket_id) (nsp : string) (st : t) : t :=
  foldl (λ st s, (close s nsp st).2) st socks.

Definition is_destroy (e : Event) : bool :=
  match e with DocumentDestroy _ => true | _ => false end.
Definition is_loaded (e : Event) : bool :=
  match e with DocumentLoaded _ => true | _ => false end.

(** *** Handlers run one at a time *)

(** What the transport does to the server. *)
Inductive transport_event : Type :=
| Accept (socket : socket_id) (nsp : string) (handshake : Handshake)
| Close (socket : socket_id) (nsp : string).

(** The handler of an event run to its end before the next event. *)
Definition handle (ev : transport_event) (st : t) : t :=
  match ev with
  | Accept socket nsp handshake => (accept socket nsp handshake st).2
  | Close socket nsp => (close socket nsp st).2
  end.

Definition run (evs : list transport_event) (st : t) : t :=
  foldl (λ st ev, handle ev st) st evs.

(** A namespace of the dynamic namespace: its name starts with [/yjs|]. *)
Definition is_yjs (nsp : string) : Prop := String.prefix "/yjs|" nsp = true.

(** A socket the server has not seen, or has forgotten. *)
Definition unknown (socket : socket_id) (st : t) : Prop :=
  listeners st !! socket = None ∧
  map_Forall (λ _ (X : gset socket_id), socket ∉ X) (sockets st).

(** What the transport keeps to: a connection comes with a new socket on a
    namespace of the dynamic namespace, and a socket closes on the
    namespace it is in. *)
Fixpoint well_timed (evs : list transport_event) (st : t) : bool :=
  match evs with
  | [] => true
  | ev :: rest =>
      match ev with
      | Accept socket nsp _ =>
          bool_decide
            (listeners st !! socket = None ∧
             map_Forall (λ _ (X : gset socket_id), socket ∉ X) (sockets st) ∧
             String.prefix "/yjs|" nsp = true)
      | Close socket nsp => bool_decide (socket ∈ fetchSockets nsp st)
      end && well_timed rest (handle ev st)
  end.

(** Every registered document exists, carries the name it is registered
    under and is not destroyed; addresses in use are below the next one. *)
Definition registry_ok (st : t) : Prop :=
  (∀ n r, _documents st !! n = Some r →
     ∃ d, heap st !! r = Some d ∧ name d = n ∧ destroyed d = false) ∧
  (∀ r, is_Some (heap st !! r) → r < next_ref st).

(** The listeners of every connected socket close over the document that is
    registered for the room of the socket's namespace. *)
Definition shared (st : t) : Prop :=
  ∀ socket nsp r, socket ∈ fetchSockets nsp st →
    listeners st !! socket = Some r →
    _documents st !! replace_first "/yjs|" nsp = Some r.

(** What the server keeps when handlers run one at a time. *)
Definition settled (st : t) : Prop :=
  registry_ok st ∧ shared st ∧
  (∀ nsp socket, socket ∈ fetchSockets nsp st → is_yjs nsp).

End Server.
End YSocketIO.

(** ** A merge engine and a store to compute with *)
Module Sample.

(** A grow-only set of small numbers kept as a bit mask: applying an
    update is set union, and a document is encoded as itself. *)
Definition engine : Y.Engine :=
  {| Y.Doc := N; Y.Update := N; Y.newDoc := 0%N;
     Y.applyUpdate := N.lor; Y.encodeStateAsUpdate := id |}.
#[export] Existing Instance engine.

(** A store in memory: one log per document name, and the names on which
    each method is made to fail. *)
Record MemDb : Type := Mem {
  logs : gmap string (list N);
  bad_gets : list string;
  bad_stores : list string;
  bad_flushes : list string
}.

Definition listed (n : string) (l : list string) : bool :=
  existsb (String.eqb n) l.

Definition mem_getUpdates (n : string) (m : MemDb) : outcome (list N) * MemDb :=
  if listed n (bad_gets m) then (Rejected "getUpdates", m)
  else (Fulfilled (default [] (logs m !! n)), m).

Definition mem_storeUpdate (n : string) (u : N) (m : MemDb) : outcome unit * MemDb :=
  if listed n (bad_stores m) then (Rejected "storeUpdate", m)
  else (Fulfilled (),
        Mem (<[n := default [] (logs m !! n) ++ [u]]> (logs m))
          (bad_gets m) (bad_stores m) (bad_flushes m)).

Definition mem_flushDocument (n : string) (st : N) (m : MemDb) : outcome unit * MemDb :=
  if listed n (bad_flushes m) then (Rejected "flushDocument", m)
  else (Fulfilled (),
        Mem (<[n := [st]]> (logs m)) (bad_gets m) (bad_stores m) (bad_flushes m)).

Definition memdb : GenericPersistence MemDb :=
  {| db_getUpdates := mem_getUpdates;
     db_storeUpdate := mem_storeUpdate;
     db_flushDocument := mem_flushDocument |}.
#[export] Existing Instance memdb.

(** A store that works, holding the given logs. *)
Definition healthy (l : list (string * list N)) : MemDb :=
  Mem (list_to_map l) [] [] [].

(** Servers over that store: without a provider, and with the adaptor over
    the store [m]. *)
Definition adaptor : Type := GenericPersistenceAdaptor.t (S:=MemDb).
Definition server : Type := YSocketIO.t (P:=adaptor).

Definition plain : server := YSocketIO.new None.

Definition persistent (m : MemDb) : server :=
  YSocketIO.new
    (Some (YSocketIO.Config None (Some (GenericPersistenceAdaptor.new m None)) None)).

Definition guarded (auth : YSocketIO.Handshake → outcome bool) : server :=
  YSocketIO.new (Some (YSocketIO.Config None None (Some auth))).

(** A provider that is down: every method rejects. *)
Definition down : PersistenceProvider unit :=
  {| provider_getYDoc _ p := (Rejected "down", p);
     provider_storeUpdate _ _ p := (Rejected "down", p);
     provider_flushDocument _ p := (Rejected "down", p) |}.

(** A provider that loads and stores but cannot flush. *)
Definition no_flush : PersistenceProvider unit :=
  {| provider_getYDoc _ p := (Fulfilled Y.newDoc, p);
     provider_storeUpdate _ _ p := (Fulfilled (), p);
     provider_flushDocument _ p := (Rejected "flush", p) |}.

End Sample.

Module GPA := GenericPersistenceAdaptor.
Module YS := YSocketIO.

(** * Facts about the promise chain *)
Section ChainFacts.
Context `{Y.Engine} {S : Type} `{!GenericPersistence S}.
Implicit Types (l : list GPA.slot) (s : GPA.slot) (q : option string).
Implicit Types (w : GPA.world (S:=S)) (a : GPA.t (S:=S)).

Lemma last_failure_cons q s l :
  GPA.last_failure q (s :: l) = GPA.last_failure (GPA.failure s) l.
Proof. unfold GPA.last_failure. rewrite last_cons. by destruct (last l). Qed.

Lemma transact_body_call c k w :
  GPA.transact_body (GPA.TxCall c k) w =
  match GPA.call_db c w with
  | (Fulfilled r, w') => GPA.transact_body (k r) w'
  | (Rejected e, w') => (None, GPA.warn e w')
  end.
Proof.
  unfold GPA.transact_body; simpl.
  destruct (GPA.call_db c w) as [[r|e] w']; reflexivity.
Qed.

Lemma settle_done q s w : GPA.is_done s = true → GPA.settle q s w = (s, w).
Proof.
  unfold GPA.is_done, GPA.settle. destruct (GPA.slot_st s); done.
Qed.

Lemma settle_all_done q l w :
  Forall (λ s, GPA.is_done s = true) l → GPA.settle_all q l w = (l, w).
Proof.
  intros Hl. revert q. induction Hl as [|s l Hs _ IH]; intros q; simpl; [done|].
  rewrite settle_done by done. by rewrite IH.
Qed.

Lemma settle_all_app q l1 l2 w :
  GPA.settle_all q (l1 ++ l2) w =
  let '(l1', w1) := GPA.settle_all q l1 w in
  let '(l2', w2) := GPA.settle_all (GPA.last_failure q l1') l2 w1 in
  (l1' ++ l2', w2).
Proof.
  revert q w. induction l1 as [|s l1 IH]; intros q w; simpl.
  - change (GPA.last_failure q []) with q. by destruct (GPA.settle_all q l2 w).
  - destruct (GPA.settle q s w) as [s' w1]. rewrite IH.
    destruct (GPA.settle_all (GPA.failure s') l1 w1) as [l1' w2].
    rewrite last_failure_cons.
    by destruct (GPA.settle_all _ l2 w2).
Qed.

Lemma settle_is_done q s w : GPA.is_done (GPA.settle q s w).1 = true.
Proof.
  unfold GPA.settle, GPA.is_done. destruct (GPA.slot_st s) as [|p|r] eqn:E.
  - destruct q; [done|]. by destruct (GPA.transact_body _ w).
  - by destruct (GPA.transact_body p w).
  - simpl. by rewrite E.
Qed.

Lemma settle_slot_f q s w : GPA.slot_f (GPA.settle q s w).1 = GPA.slot_f s.
Proof.
  unfold GPA.settle. destruct (GPA.slot_st s) as [|p|r].
  - destruct q; [done|]. by destruct (GPA.transact_body _ w).
  - by destruct (GPA.transact_body p w).
  - done.
Qed.

Lemma settle_all_is_done q l w :
  Forall (λ s, GPA.is_done s = true) (GPA.settle_all q l w).1.
Proof.
  revert q w. induction l as [|s l IH]; intros q w; simpl; [constructor|].
  pose proof (settle_is_done q s w) as Hs.
  destruct (GPA.settle q s w) as [s' w1]. specialize (IH (GPA.failure s') w1).
  destruct (GPA.settle_all _ l w1) as [l' w2]. simpl in *. by constructor.
Qed.

Lemma settle_all_slot_f q l w :
  GPA.slot_f <$> (GPA.settle_all q l w).1 = GPA.slot_f <$> l.
Proof.
  revert q w. induction l as [|s l IH]; intros q w; simpl; [done|].
  pose proof (settle_slot_f q s w) as Hs.
  destruct (GPA.settle q s w) as [s' w1]. specialize (IH (GPA.failure s') w1).
  destruct (GPA.settle_all _ l w1) as [l' w2]. cbn [fst] in *.
  rewrite !fmap_cons. f_equal; done.
Qed.

Lemma settle_all_length q l w : length (GPA.settle_all q l w).1 = length l.
Proof.
  rewrite <- (length_fmap GPA.slot_f), settle_all_slot_f. apply length_fmap.
Qed.

(** With no rejected promise before, none comes about: [transact_body]
    catches. *)
Lemma settle_unrejected s w :
  GPA.failure s = None → GPA.failure (GPA.settle None s w).1 = None.
Proof.
  unfold GPA.settle, GPA.failure. destruct (GPA.slot_st s) as [|p|r] eqn:E.
  - by destruct (GPA.transact_body _ w).
  - by destruct (GPA.transact_body p w).
  - simpl. by rewrite E.
Qed.

Lemma settle_all_unrejected l : ∀ w,
  GPA.unrejected l → GPA.unrejected (GPA.settle_all None l w).1.
Proof.
  unfold GPA.unrejected.
  induction l as [|s l IH]; intros w Hl; simpl; [constructor|].
  apply Forall_cons in Hl as [Hs Hl].
  pose proof (settle_unrejected s w Hs) as Hs'.
  destruct (GPA.settle None s w) as [s' w1]. simpl in Hs'. rewrite Hs'.
  specialize (IH w1 Hl).
  destruct (GPA.settle_all None l w1) as [l' w2]. simpl in *. by constructor.
Qed.

Lemma last_failure_unrejected l : GPA.unrejected l → GPA.last_failure None l = None.
Proof.
  unfold GPA.last_failure. intros Hl. destruct (last l) as [s|] eqn:Hs; [|done].
  simpl. apply last_Some in Hs as [l' ->].
  by apply Forall_app in Hl as [_ [Hs _]%Forall_cons].
Qed.

(** Replacing the first unsettled task by one that settles the same way
    does not change what the chain settles to. *)
Lemma settle_all_insert q l i s s' w w' :
  Forall (λ s, GPA.is_done s = true) (take i l) →
  l !! i = Some s →
  GPA.settle (GPA.last_failure q (take i l)) s' w' =
    GPA.settle (GPA.last_failure q (take i l)) s w →
  GPA.settle_all q (<[i := s']> l) w' = GPA.settle_all q l w.
Proof.
  intros Hpre Hi Hs.
  rewrite insert_take_drop by (by eapply lookup_lt_Some).
  rewrite <- (take_drop_middle l i s) at 3 by done.
  rewrite !settle_all_app.
  rewrite (settle_all_done q (take i l) w), (settle_all_done q (take i l) w') by done.
  simpl. by rewrite Hs.
Qed.

(** Behind a settled beginning of the chain, [currTr] is known. *)
Lemma currTr_prefix l i :
  i ≤ length l →
  Forall (λ s, GPA.is_done s = true) (take i l) →
  GPA.currTr i l = Some (GPA.last_failure None (take i l)).
Proof.
  intros Hi Hpre. destruct i as [|i]; [done|]. simpl.
  assert (is_Some (l !! i)) as [si Hsi] by (apply lookup_lt_is_Some; lia).
  rewrite Hsi. simpl.
  assert (take (Datatypes.S i) l !! i = Some si) as Ht
    by (apply lookup_take_Some; split; [done|lia]).
  rewrite (Forall_lookup_1 _ _ _ _ Hpre Ht).
  unfold GPA.last_failure. rewrite last_lookup, length_take_le by lia. simpl.
  by rewrite Ht.
Qed.

Lemma fifo_prefix l i s :
  GPA.fifo l → l !! i = Some s →
  GPA.is_waiting s = false ∨ is_Some (GPA.currTr i l) →
  Forall (λ s, GPA.is_done s = true) (take i l).
Proof.
  intros Hf Hi Hs. apply Forall_lookup. intros j sj Hj.
  apply lookup_take_Some in Hj as [Hj Hlt].
  destruct Hs as [Hs|Hs]; [by eapply (Hf j i)|].
  destruct i as [|i]; [lia|]. simpl in Hs.
  destruct (l !! i) as [si|] eqn:Hsi; [|by destruct Hs]. simpl in Hs.
  destruct (GPA.is_done si) eqn:Hd; [|by destruct Hs].
  destruct (decide (j = i)) as [->|Hne]; [congruence|].
  eapply (Hf j i); eauto; [lia|].
  unfold GPA.is_done in Hd. unfold GPA.is_waiting.
  by destruct (GPA.slot_st si).
Qed.

Lemma fifo_insert l i s s' :
  GPA.fifo l → l !! i = Some s →
  GPA.is_done s = false → GPA.is_waiting s' = false →
  Forall (λ s, GPA.is_done s = true) (take i l) →
  GPA.fifo (<[i := s']> l).
Proof.
  intros Hf Hi Hnd Hnw Hpre i1 j1 si sj H1 H2 Hlt Hw.
  destruct (decide (j1 = i)) as [->|Hj].
  - rewrite list_lookup_insert_ne in H1 by lia.
    eapply Forall_lookup_1 in Hpre; [done|].
    apply lookup_take_Some; eauto.
  - rewrite list_lookup_insert_ne in H2 by done.
    destruct (decide (i1 = i)) as [->|Hi1].
    + pose proof (Hf i j1 s sj Hi H2 Hlt Hw). congruence.
    + rewrite list_lookup_insert_ne in H1 by done. by eapply (Hf i1 j1).
Qed.

Lemma fifo_nil : GPA.fifo [].
Proof. intros i j si sj Hi. by rewrite lookup_nil in Hi. Qed.

Lemma fifo_submit l f : GPA.fifo l → GPA.fifo (l ++ [GPA.Slot f GPA.Waiting]).
Proof.
  intros Hf i j si sj Hi Hj Hlt Hw.
  apply lookup_snoc_Some in Hj as [[Hj1 Hj2]|[Hj1 Hj2]].
  - rewrite lookup_app_l in Hi by lia. by eapply (Hf i j).
  - by subst sj.
Qed.

(** What one turn does to the chain, case by case. *)
Lemma advance_inv i a a' :
  GPA.advance i a = Some a' →
  ∃ s s', GPA.tr a !! i = Some s ∧
    GPA.tr a' = <[i := s']> (GPA.tr a) ∧
    GPA.trimSize a' = GPA.trimSize a ∧
    GPA.slot_f s' = GPA.slot_f s ∧
    GPA.is_done s = false ∧ GPA.is_waiting s' = false ∧
    (GPA.is_waiting s = false ∨ is_Some (GPA.currTr i (GPA.tr a))) ∧
    (GPA.failure s' = None ∨ GPA.currTr i (GPA.tr a) = Some (GPA.failure s')) ∧
    (∀ q, (GPA.is_waiting s = true → GPA.currTr i (GPA.tr a) = Some q) →
       GPA.settle q s' (GPA.env a') = GPA.settle q s (GPA.env a)).
Proof.
  unfold GPA.advance. destruct (GPA.tr a !! i) as [s|] eqn:Hi; [|done]. simpl.
  destruct s as [f st]. simpl. destruct st as [|p|r]; [| |done].
  - destruct (GPA.currTr i (GPA.tr a)) as [[e|]|] eqn:Hc; [| |done].
    + intros [= <-]. eexists _, _. split; [done|]. simpl.
      repeat split; eauto. intros q Hq. by injection (Hq eq_refl) as <-.
    + intros [= <-]. eexists _, _. split; [done|]. simpl.
      repeat split; eauto. intros q Hq. by injection (Hq eq_refl) as <-.
  - destruct p as [v|e|c k].
    + intros [= <-]. eexists _, _. split; [done|]. simpl. repeat split; eauto.
    + intros [= <-]. eexists _, _. split; [done|]. simpl. repeat split; eauto.
    + destruct (GPA.call_db c (GPA.env a)) as [[r|e] w'] eqn:Hc;
        intros [= <-]; (eexists _, _; split; [done|]); simpl;
        repeat split; eauto; intros q _; unfold GPA.settle; simpl;
        by rewrite transact_body_call, Hc.
Qed.

Lemma fifo_advance i a a' :
  GPA.advance i a = Some a' → GPA.fifo (GPA.tr a) → GPA.fifo (GPA.tr a').
Proof.
  intros (s & s' & Hi & -> & _ & _ & Hnd & Hnw & Hs & _)%advance_inv Hf.
  eapply fifo_insert; eauto using fifo_prefix.
Qed.

Lemma quiesce_advance i a a' :
  GPA.advance i a = Some a' → GPA.fifo (GPA.tr a) →
  GPA.quiesce a' = GPA.quiesce a.
Proof.
  intros (s & s' & Hi & Htr & Htrim & _ & _ & _ & Hs & _ & Hset)%advance_inv Hf.
  unfold GPA.quiesce. rewrite Htr, Htrim.
  pose proof (fifo_prefix _ _ _ Hf Hi Hs) as Hpre.
  rewrite (settle_all_insert None _ _ s s' (GPA.env a)); [done..|].
  apply Hset. intros _. apply currTr_prefix; [|done].
  apply lookup_lt_Some in Hi. lia.
Qed.

Lemma fs_advance i a a' :
  GPA.advance i a = Some a' →
  GPA.slot_f <$> GPA.tr a' = GPA.slot_f <$> GPA.tr a.
Proof.
  intros (s & s' & Hi & -> & _ & Hf & _)%advance_inv.
  rewrite list_fmap_insert, Hf. apply list_insert_id.
  by rewrite list_lookup_fmap, Hi.
Qed.

(** No turn rejects a promise, unless one was rejected before. *)
Lemma unrejected_advance i a a' :
  GPA.advance i a = Some a' →
  GPA.unrejected (GPA.tr a) → GPA.unrejected (GPA.tr a').
Proof.
  intros (s & s' & Hi & -> & _ & _ & _ & _ & _ & Hfail & _)%advance_inv Hun.
  unfold GPA.unrejected in *. apply Forall_insert; [done|].
  destruct Hfail as [Hfail|Hfail]; [done|].
  destruct i as [|i]; simpl in Hfail; [congruence|].
  destruct (GPA.tr a !! i) as [si|] eqn:Hsi; [|done]. simpl in Hfail.
  destruct (GPA.is_done si); [|done]. injection Hfail as <-.
  by eapply Forall_lookup_1 in Hun.
Qed.

Lemma exec_app (xs ys : list GPA.action) a :
  GPA.exec (xs ++ ys) a = GPA.exec xs a ≫= GPA.exec ys.
Proof.
  revert a. induction xs as [|x xs IH]; intros a; simpl; [done|].
  destruct (GPA.act x a) as [a1|]; simpl; [apply IH|done].
Qed.

(** Whatever the schedule, the chain is served first in, first out, no
    promise of it is rejected, and letting it run to completion gives what
    running the submitted functions one after the other gives. *)
Lemma exec_serial sched a0 a :
  GPA.tr a0 = [] → GPA.exec sched a0 = Some a →
  GPA.fifo (GPA.tr a) ∧
  GPA.unrejected (GPA.tr a) ∧
  GPA.trimSize a = GPA.trimSize a0 ∧
  (GPA.tr (GPA.quiesce a), GPA.env (GPA.quiesce a)) =
    GPA.in_order (GPA.slot_f <$> GPA.tr a) (GPA.env a0).
Proof.
  intros H0. revert a. induction sched as [|x sched IH] using rev_ind; intros a.
  - intros [= <-]. rewrite H0. split; [apply fifo_nil|].
    split; [constructor|]. split; [done|].
    unfold GPA.quiesce. by rewrite H0.
  - rewrite exec_app. destruct (GPA.exec sched a0) as [a1|] eqn:E1; [|done].
    simpl. destruct (GPA.act x a1) as [a2|] eqn:E2; [|done]. simpl.
    intros [= <-]. destruct (IH a1 eq_refl) as (Hf & Hun & Htrim & Hq).
    destruct x as [f|i]; simpl in E2.
    + injection E2 as <-. simpl. split; [by apply fifo_submit|].
      split; [apply Forall_app; split; [done|by constructor]|]. split; [done|].
      unfold GPA.in_order in *. rewrite fmap_app, fmap_app. simpl.
      unfold GPA.quiesce in *. simpl. rewrite !settle_all_app.
      destruct (GPA.settle_all None (GPA.tr a1) (GPA.env a1)) as [l1 w1].
      simpl in Hq. rewrite <- Hq. simpl.
      by destruct (GPA.settle _ (GPA.Slot f GPA.Waiting) w1).
    + split; [by eapply fifo_advance|].
      split; [by eapply unrejected_advance|]. split.
      * apply advance_inv in E2 as (?&?&?&?&?&?). congruence.
      * by rewrite (quiesce_advance i a1 a2), (fs_advance i a1 a2).
Qed.

End ChainFacts.

(** * Facts about the provider's methods *)
Section AdaptorFacts.
Context `{Y.Engine} {S : Type} `{!GenericPersistence S}.
Implicit Types (w : GPA.world (S:=S)) (a : GPA.t (S:=S)).

(** An awaited [_transact] on a chain without a rejected promise: the chain
    runs to completion, the new task last, and the promise is fulfilled. *)
Lemma await_transact f a :
  GPA.unrejected (GPA.tr a) →
  GPA.await (GPA._transact f a).1 (GPA._transact f a).2 =
  let q := GPA.quiesce a in
  let '(r, w) := GPA.transact_body f (GPA.env q) in
  (Fulfilled r,
   {| GPA.env := w; GPA.tr := GPA.tr q ++ [GPA.Slot f (GPA.Done (Fulfilled r))];
      GPA.trimSize := GPA.trimSize a |}).
Proof.
  intros Hun. unfold GPA.await, GPA._transact, GPA.quiesce. simpl.
  rewrite take_ge, drop_ge by (rewrite length_app; simpl; lia).
  rewrite settle_all_app.
  pose proof (settle_all_length None (GPA.tr a) (GPA.env a)) as Hlen.
  pose proof (settle_all_unrejected (GPA.tr a) (GPA.env a) Hun) as Hun'.
  destruct (GPA.settle_all None (GPA.tr a) (GPA.env a)) as [l1 w1]. simpl in *.
  rewrite (last_failure_unrejected l1 Hun').
  unfold GPA.settle. simpl.
  destruct (GPA.transact_body f w1) as [r w2]. simpl.
  rewrite app_nil_r, <- Hlen, list_lookup_middle by done. done.
Qed.

(** An awaited [_transact] leaves the chain run to completion. *)
Lemma await_transact_quiesce f a :
  (GPA.await (GPA._transact f a).1 (GPA._transact f a).2).2 =
  GPA.quiesce (GPA._transact f a).2.
Proof.
  unfold GPA.await, GPA._transact, GPA.quiesce. simpl.
  rewrite take_ge, drop_ge by (rewrite length_app; simpl; lia).
  destruct (GPA.settle_all None _ (GPA.env a)) as [l w]. simpl.
  by rewrite app_nil_r.
Qed.

Lemma getYDoc_unfold n trim a :
  GPA.unrejected (GPA.tr a) →
  GPA.getYDoc n trim a =
  let q := GPA.quiesce a in
  let f := GPA.getYDoc_tx n (default (GPA.trimSize a) trim) in
  let '(r, w) := GPA.transact_body f (GPA.env q) in
  (Fulfilled (GPA.loaded_doc r),
   {| GPA.env := w; GPA.tr := GPA.tr q ++ [GPA.Slot f (GPA.Done (Fulfilled r))];
      GPA.trimSize := GPA.trimSize a |}).
Proof.
  intros Hun. unfold GPA.getYDoc.
  pose proof (await_transact
                (GPA.getYDoc_tx n (default (GPA.trimSize a) trim)) a Hun) as Ha.
  destruct (GPA._transact _ a) as [p a1]. simpl in Ha. rewrite Ha. clear Ha.
  simpl. by destruct (GPA.transact_body _ _) as [r w].
Qed.

(** The provider's methods keep the chain free of rejected promises. *)
Lemma getYDoc_unrejected n trim a :
  GPA.unrejected (GPA.tr a) → GPA.unrejected (GPA.tr (GPA.getYDoc n trim a).2).
Proof.
  intros Hun. rewrite getYDoc_unfold by done. simpl. unfold GPA.quiesce.
  pose proof (settle_all_unrejected (GPA.tr a) (GPA.env a) Hun) as Hun'.
  destruct (GPA.settle_all None (GPA.tr a) (GPA.env a)) as [l1 w1]. simpl in *.
  destruct (GPA.transact_body _ w1) as [r w2]. simpl.
  apply Forall_app. split; [done|]. by constructor.
Qed.

(** What the load's own transaction does, by what the store answers. *)
Lemma getYDoc_tx_read_fails n trim w e s' :
  db_getUpdates n (GPA.db w) = (Rejected e, s') →
  GPA.transact_body (GPA.getYDoc_tx n trim) w =
    (None, GPA.World s' (GPA.calls w ++ [GetUpdates n]) (GPA.console w ++ [e])).
Proof.
  intros Hg. unfold GPA.getYDoc_tx. rewrite transact_body_call.
  unfold GPA.call_db. simpl. by rewrite Hg.
Qed.

Lemma getYDoc_tx_small n trim w us s' :
  db_getUpdates n (GPA.db w) = (Fulfilled us, s') →
  (Z.of_nat (length us) ≤ trim)%Z →
  GPA.transact_body (GPA.getYDoc_tx n trim) w =
    (Some (GPA.VDoc (GPA.replay us)),
     GPA.World s' (GPA.calls w ++ [GetUpdates n]) (GPA.console w)).
Proof.
  intros Hg Hlen. unfold GPA.getYDoc_tx. rewrite transact_body_call.
  unfold GPA.call_db. simpl. rewrite Hg.
  destruct (Z.ltb_spec trim (Z.of_nat (length us))); [lia|done].
Qed.

Lemma getYDoc_tx_large n trim w us s' :
  db_getUpdates n (GPA.db w) = (Fulfilled us, s') →
  (trim < Z.of_nat (length us))%Z →
  let snap := Y.encodeStateAsUpdate (GPA.replay us) in
  GPA.transact_body (GPA.getYDoc_tx n trim) w =
    match db_flushDocument n snap s' with
    | (Fulfilled _, s'') =>
        (Some (GPA.VDoc (GPA.replay us)),
         GPA.World s'' (GPA.calls w ++ [GetUpdates n; FlushDocument n snap])
           (GPA.console w))
    | (Rejected e, s'') =>
        (None,
         GPA.World s'' (GPA.calls w ++ [GetUpdates n; FlushDocument n snap])
           (GPA.console w ++ [e]))
    end.
Proof.
  intros Hg Hlen snap. unfold GPA.getYDoc_tx. rewrite transact_body_call.
  unfold GPA.call_db. simpl. rewrite Hg.
  destruct (Z.ltb_spec trim (Z.of_nat (length us))); [|lia].
  rewrite transact_body_call. unfold GPA.call_db. simpl. fold snap.
  destruct (db_flushDocument n snap s') as [[[]|e] s'']; simpl;
    by rewrite <- app_assoc.
Qed.

End AdaptorFacts.

(** * The chain never stalls *)
Section Liveness.
Context `{Y.Engine} {S : Type} `{!GenericPersistence S}.
Implicit Types (l : list GPA.slot) (s : GPA.slot) (q : option string).
Implicit Types (w : GPA.world (S:=S)) (a : GPA.t (S:=S)).

(** A running task settles after finitely many turns, with what
    [transact_body] gives. *)
Lemma running_settles p : ∀ a i f,
  GPA.tr a !! i = Some (GPA.Slot f (GPA.Running p)) →
  ∃ n, GPA.exec (replicate n (GPA.Step i)) a =
    Some {| GPA.env := (GPA.transact_body p (GPA.env a)).2;
            GPA.tr := <[i := GPA.Slot f
                          (GPA.Done (Fulfilled (GPA.transact_body p (GPA.env a)).1))]>
                        (GPA.tr a);
            GPA.trimSize := GPA.trimSize a |}.
Proof.
  induction p as [v|e|c k IH]; intros a i f Hi.
  - exists 1. simpl. unfold GPA.advance. rewrite Hi. done.
  - exists 1. simpl. unfold GPA.advance. rewrite Hi. done.
  - rewrite transact_body_call.
    destruct (GPA.call_db c (GPA.env a)) as [[r|e] w'] eqn:Hc.
    + set (a1 := {| GPA.env := w';
                    GPA.tr := <[i := GPA.Slot f (GPA.Running (k r))]> (GPA.tr a);
                    GPA.trimSize := GPA.trimSize a |}).
      destruct (IH r a1 i f) as [n Hn].
      { simpl. apply list_lookup_insert_eq. by eapply lookup_lt_Some. }
      exists (Datatypes.S n). simpl. unfold GPA.advance at 1. rewrite Hi. simpl.
      rewrite Hc. simpl. fold a1. rewrite Hn. simpl.
      by rewrite list_insert_insert_eq.
    + exists 1. simpl. unfold GPA.advance. rewrite Hi. simpl. by rewrite Hc.
Qed.

(** The first unsettled task of the chain can always be run to its end. *)
Lemma first_settles a i s :
  GPA.tr a !! i = Some s →
  Forall (λ s, GPA.is_done s = true) (take i (GPA.tr a)) →
  let q := GPA.last_failure None (take i (GPA.tr a)) in
  ∃ sched, GPA.exec sched a =
    Some {| GPA.env := (GPA.settle q s (GPA.env a)).2;
            GPA.tr := <[i := (GPA.settle q s (GPA.env a)).1]> (GPA.tr a);
            GPA.trimSize := GPA.trimSize a |}.
Proof.
  intros Hi Hpre q.
  assert (GPA.currTr i (GPA.tr a) = Some q) as Hq.
  { apply currTr_prefix; [|done]. apply lookup_lt_Some in Hi. lia. }
  destruct s as [f [|p|r]]; unfold GPA.settle; simpl.
  - destruct q as [e|].
    + exists [GPA.Step i]. simpl. unfold GPA.advance. rewrite Hi. simpl.
      by rewrite Hq.
    + set (a1 := {| GPA.env := GPA.env a;
                    GPA.tr := <[i := GPA.Slot f (GPA.Running f)]> (GPA.tr a);
                    GPA.trimSize := GPA.trimSize a |}).
      destruct (running_settles f a1 i f) as [n Hn].
      { simpl. apply list_lookup_insert_eq. by eapply lookup_lt_Some. }
      exists (GPA.Step i :: replicate n (GPA.Step i)). simpl.
      unfold GPA.advance at 1. rewrite Hi. simpl. rewrite Hq. simpl.
      fold a1. rewrite Hn. simpl.
      destruct (GPA.transact_body f (GPA.env a)) as [r w']. simpl.
      by rewrite list_insert_insert_eq.
  - destruct (running_settles p a i f Hi) as [n Hn].
    exists (replicate n (GPA.Step i)).
    rewrite Hn. by destruct (GPA.transact_body p (GPA.env a)) as [r w'].
  - exists []. simpl. rewrite list_insert_id by done. by destruct a.
Qed.

Lemma chain_settles rest : ∀ pre a,
  GPA.tr a = pre ++ rest →
  Forall (λ s, GPA.is_done s = true) pre →
  ∃ sched, GPA.exec sched a = Some (GPA.quiesce a).
Proof.
  induction rest as [|s rest IH]; intros pre a Htr Hpre.
  - exists []. simpl. unfold GPA.quiesce. rewrite app_nil_r in Htr.
    rewrite settle_all_done by (by rewrite Htr). by destruct a.
  - assert (GPA.tr a !! length pre = Some s) as Hi.
    { rewrite Htr. by apply list_lookup_middle. }
    assert (take (length pre) (GPA.tr a) = pre) as Htake.
    { rewrite Htr. by rewrite take_app_length. }
    destruct (first_settles a (length pre) s Hi) as [sc1 H1].
    { by rewrite Htake. }
    rewrite Htake in H1.
    set (q := GPA.last_failure None pre) in *.
    set (a1 := {| GPA.env := (GPA.settle q s (GPA.env a)).2;
                  GPA.tr := <[length pre := (GPA.settle q s (GPA.env a)).1]> (GPA.tr a);
                  GPA.trimSize := GPA.trimSize a |}) in *.
    destruct (IH (pre ++ [(GPA.settle q s (GPA.env a)).1]) a1) as [sc2 H2].
    { simpl. rewrite Htr.
      rewrite (insert_app_r_alt pre) by lia.
      replace (length pre - length pre) with 0 by lia. simpl.
      by rewrite <- app_assoc. }
    { apply Forall_app. split; [done|]. constructor; [|constructor].
      apply settle_is_done. }
    exists (sc1 ++ sc2). rewrite exec_app, H1. simpl. rewrite H2. f_equal.
    unfold GPA.quiesce, a1. simpl.
    rewrite (settle_all_insert None _ _ s _ (GPA.env a));
      [done| by rewrite Htake |done|].
    rewrite Htake. fold q.
    rewrite settle_done by apply settle_is_done.
    by destruct (GPA.settle q s (GPA.env a)).
Qed.

Lemma quiesce_reachable a : ∃ sched, GPA.exec sched a = Some (GPA.quiesce a).
Proof. by apply (chain_settles (GPA.tr a) [] a). Qed.

(** Running to completion only adds to the trace and to the console. *)
Lemma run_f_grows f : ∀ w,
  ∃ cs, GPA.calls (GPA.run_f f w).2 = GPA.calls w ++ cs ∧
        GPA.console (GPA.run_f f w).2 = GPA.console w.
Proof.
  induction f as [v|e|c k IH]; intros w; simpl.
  - exists []. by rewrite app_nil_r.
  - exists []. by rewrite app_nil_r.
  - unfold GPA.call_db. destruct (perform c (GPA.db w)) as [[r|e] s'].
    + destruct (IH r (GPA.World s' (GPA.calls w ++ [c]) (GPA.console w)))
        as (cs & Hc & Hl). simpl in *.
      exists (c :: cs). rewrite Hc, Hl. by rewrite <- app_assoc.
    + by exists [c].
Qed.

Lemma transact_body_grows f w :
  ∃ cs es, GPA.calls (GPA.transact_body f w).2 = GPA.calls w ++ cs ∧
           GPA.console (GPA.transact_body f w).2 = GPA.console w ++ es.
Proof.
  unfold GPA.transact_body. destruct (run_f_grows f w) as (cs & Hc & Hl).
  destruct (GPA.run_f f w) as [[v|e] w']; simpl in *.
  - exists cs, []. by rewrite app_nil_r.
  - by exists cs, [e]; rewrite Hl.
Qed.

Lemma settle_all_grows l : ∀ q w,
  ∃ cs es, GPA.calls (GPA.settle_all q l w).2 = GPA.calls w ++ cs ∧
           GPA.console (GPA.settle_all q l w).2 = GPA.console w ++ es.
Proof.
  induction l as [|s l IH]; intros q w; simpl.
  - exists [], []. by rewrite !app_nil_r.
  - assert (∃ cs es, GPA.calls (GPA.settle q s w).2 = GPA.calls w ++ cs ∧
                     GPA.console (GPA.settle q s w).2 = GPA.console w ++ es)
      as (cs1 & es1 & Hc1 & Hl1).
    { unfold GPA.settle. destruct (GPA.slot_st s) as [|p|r].
      - destruct q as [e|]; [exists [], []; by rewrite !app_nil_r|].
        pose proof (transact_body_grows (GPA.slot_f s) w) as Hg.
        by destruct (GPA.transact_body (GPA.slot_f s) w).
      - pose proof (transact_body_grows p w) as Hg.
        by destruct (GPA.transact_body p w).
      - exists [], []. by rewrite !app_nil_r. }
    destruct (GPA.settle q s w) as [s' w1]. simpl in *.
    destruct (IH (GPA.failure s') w1) as (cs2 & es2 & Hc2 & Hl2).
    destruct (GPA.settle_all _ l w1) as [l' w2]. simpl in *.
    exists (cs1 ++ cs2), (es1 ++ es2). rewrite Hc2, Hl2, Hc1, Hl1.
    by rewrite !app_assoc.
Qed.

End Liveness.

(** * The store decides what later transactions see *)
Section StoreOnly.
Context `{Y.Engine} {S : Type} `{!GenericPersistence S}.
Implicit Types (w : GPA.world (S:=S)).

Lemma run_f_db f : ∀ w w', GPA.db w = GPA.db w' →
  (GPA.run_f f w).1 = (GPA.run_f f w').1 ∧
  GPA.db (GPA.run_f f w).2 = GPA.db (GPA.run_f f w').2.
Proof.
  induction f as [v|e|c k IH]; intros w w' Hdb; simpl; [done..|].
  unfold GPA.call_db. rewrite <- Hdb.
  destruct (perform c (GPA.db w)) as [[r|e] s']; [|done]. by apply IH.
Qed.

Lemma transact_body_db f w w' : GPA.db w = GPA.db w' →
  (GPA.transact_body f w).1 = (GPA.transact_body f w').1 ∧
  GPA.db (GPA.transact_body f w).2 = GPA.db (GPA.transact_body f w').2.
Proof.
  intros Hdb. unfold GPA.transact_body.
  destruct (run_f_db f w w' Hdb) as [Hr Hd].
  destruct (GPA.run_f f w) as [[v|e] w1], (GPA.run_f f w') as [[v'|e'] w1'];
    simpl in *; by simplify_eq.
Qed.

Lemma in_order_db fs : ∀ w w', GPA.db w = GPA.db w' →
  (GPA.in_order fs w).1 = (GPA.in_order fs w').1 ∧
  GPA.db (GPA.in_order fs w).2 = GPA.db (GPA.in_order fs w').2.
Proof.
  unfold GPA.in_order.
  induction fs as [|f fs IH]; intros w w' Hdb; [done|].
  rewrite fmap_cons. simpl. unfold GPA.settle. simpl.
  destruct (transact_body_db f w w' Hdb) as [Hr Hd].
  destruct (GPA.transact_body f w) as [r w1], (GPA.transact_body f w') as [r' w1'].
  simpl in *. subst r'. unfold GPA.failure. simpl.
  destruct (IH w1 w1' Hd) as [Hl Hd2].
  destruct (GPA.settle_all None _ w1) as [l w2],
           (GPA.settle_all None _ w1') as [l' w2'].
  simpl in *. by subst l'.
Qed.

(** Run in order from the start, no promise is rejected. *)
Lemma in_order_unrejected fs w : GPA.unrejected (GPA.in_order fs w).1.
Proof.
  unfold GPA.in_order. apply settle_all_unrejected.
  unfold GPA.unrejected. apply Forall_fmap. by apply Forall_true.
Qed.

End StoreOnly.

(** * The claims about the adaptor *)
Section AdaptorClaims.
Context `{Y.Engine} {S : Type} `{!GenericPersistence S}.
Implicit Types (w : GPA.world (S:=S)) (a : GPA.t (S:=S)).

(** C3. A load whose log has exactly [trimSize] entries makes no
    consolidation write; a load whose log has [trimSize + 1] entries makes
    exactly one, carrying the replayed state: the condition is strictly
    greater than the threshold. The log is the one the store hands out when
    the load's turn comes, on a chain none of whose promises was rejected
    (as is every chain that starts empty). *)
Theorem getYDoc_compacts_strictly_above_trimSize n trim a us s' :
  let w := GPA.env (GPA.quiesce a) in
  let T := default (GPA.trimSize a) trim in
  GPA.unrejected (GPA.tr a) →
  db_getUpdates n (GPA.db w) = (Fulfilled us, s') →
  (Z.of_nat (length us) = T →
     ∃ a' made, GPA.getYDoc n trim a = (Fulfilled (GPA.replay us), a') ∧
       GPA.calls (GPA.env a') = GPA.calls w ++ made ∧
       made = [GetUpdates n] ∧ flush_count made = 0) ∧
  (Z.of_nat (length us) = (T + 1)%Z →
     ∃ d a' made, GPA.getYDoc n trim a = (Fulfilled d, a') ∧
       GPA.calls (GPA.env a') = GPA.calls w ++ made ∧
       made = [GetUpdates n;
               FlushDocument n (Y.encodeStateAsUpdate (GPA.replay us))] ∧
       flush_count made = 1).
Proof.
  intros w T Hun Hg.
  split; intros Hlen; rewrite getYDoc_unfold by done; simpl; fold w T.
  - rewrite (getYDoc_tx_small n T w us s') by (done || lia).
    eexists _, _. split; [done|]. simpl. done.
  - rewrite (getYDoc_tx_large n T w us s') by (done || lia).
    destruct (db_flushDocument _ _ s') as [[[]|e] s''];
      (eexists _, _, _; split; [done|]; simpl; done).
Qed.

(** C2, as the code has it. [flushDocument] is the load with threshold
    zero: a log with at least one entry is written back as exactly one
    consolidated snapshot of the replayed state, whatever its length; an
    empty log is not written back. *)
Theorem flushDocument_consolidates_nonempty_log n a us s' :
  let w := GPA.env (GPA.quiesce a) in
  GPA.unrejected (GPA.tr a) →
  db_getUpdates n (GPA.db w) = (Fulfilled us, s') →
  ∃ a' made, GPA.flushDocument n a = (Fulfilled (), a') ∧
    GPA.calls (GPA.env a') = GPA.calls w ++ made ∧
    (us ≠ [] →
       made = [GetUpdates n;
               FlushDocument n (Y.encodeStateAsUpdate (GPA.replay us))] ∧
       flush_count made = 1) ∧
    (us = [] → made = [GetUpdates n] ∧ flush_count made = 0).
Proof.
  intros w Hun Hg. unfold GPA.flushDocument. rewrite getYDoc_unfold by done.
  simpl. fold w.
  destruct us as [|u us].
  - rewrite (getYDoc_tx_small n 0 w [] s') by (done || simpl; lia).
    eexists _, _. split; [done|]. simpl. split; [done|]. by split.
  - rewrite (getYDoc_tx_large n 0 w (u :: us) s') by (done || simpl; lia).
    destruct (db_flushDocument _ _ s') as [[[]|e] s''];
      (eexists _, _; split; [done|]; simpl; split; [done|]; by split).
Qed.

(** A load whose transaction succeeds hands back what the log replays
    to. *)
Lemma getYDoc_loads n trim a us s' :
  GPA.unrejected (GPA.tr a) →
  db_getUpdates n (GPA.db (GPA.env (GPA.quiesce a))) = (Fulfilled us, s') →
  ((Z.of_nat (length us) ≤ default (GPA.trimSize a) trim)%Z ∨
   ∃ s'', db_flushDocument n (Y.encodeStateAsUpdate (GPA.replay us)) s'
            = (Fulfilled (), s'')) →
  ∃ a', GPA.getYDoc n trim a = (Fulfilled (GPA.replay us), a').
Proof.
  intros Hun Hg Hok. rewrite getYDoc_unfold by done. cbv zeta.
  set (w := GPA.env (GPA.quiesce a)) in *.
  set (T := default (GPA.trimSize a) trim) in *.
  destruct (Z.le_gt_cases (Z.of_nat (length us)) T) as [Hle|Hgt].
  - rewrite (getYDoc_tx_small n T w us s') by done. by eexists.
  - destruct Hok as [Hle|[s'' Hf]]; [lia|].
    rewrite (getYDoc_tx_large n T w us s') by (done || lia). cbv zeta.
    rewrite Hf. by eexists.
Qed.

(** C8. Compaction does not change what a room loads as. A load that
    finds a log [us] longer than the threshold hands back the document
    obtained by applying the entries of [us] in order to a new document,
    and writes the encoding of that document to the store as the snapshot.
    Any later load that the store answers with that snapshot, alone or
    followed by updates stored since, hands back what the original log
    followed by those updates replays to: the snapshot stands for the log
    it replaced. The merge engine is external; what is used of it is that
    a new document to which the encoding of [d] is applied is [d]. *)
Theorem compaction_snapshot_replays_to_the_same_state n trim a us s1 s2 :
  (∀ d : Y.Doc, Y.applyUpdate Y.newDoc (Y.encodeStateAsUpdate d) = d) →
  let w := GPA.env (GPA.quiesce a) in
  let state := foldl Y.applyUpdate Y.newDoc us in
  let snap := Y.encodeStateAsUpdate state in
  GPA.unrejected (GPA.tr a) →
  db_getUpdates n (GPA.db w) = (Fulfilled us, s1) →
  (default (GPA.trimSize a) trim < Z.of_nat (length us))%Z →
  db_flushDocument n snap s1 = (Fulfilled (), s2) →
  (∃ a1, GPA.getYDoc n trim a = (Fulfilled state, a1) ∧
     GPA.calls (GPA.env a1) =
       GPA.calls w ++ [GetUpdates n; FlushDocument n snap] ∧
     GPA.db (GPA.env a1) = s2 ∧
     GPA.unrejected (GPA.tr a1)) ∧
  (∀ a2 trim2 later s3,
     GPA.unrejected (GPA.tr a2) →
     db_getUpdates n (GPA.db (GPA.env (GPA.quiesce a2)))
       = (Fulfilled (snap :: later), s3) →
     ((Z.of_nat (length (snap :: later)) ≤ default (GPA.trimSize a2) trim2)%Z ∨
      ∃ s4, db_flushDocument n
              (Y.encodeStateAsUpdate (foldl Y.applyUpdate Y.newDoc (us ++ later))) s3
              = (Fulfilled (), s4)) →
     ∃ a3, GPA.getYDoc n trim2 a2 =
             (Fulfilled (foldl Y.applyUpdate Y.newDoc (us ++ later)), a3)).
Proof.
  intros Hlaw w state snap Hun Hg Hlen Hf. split.
  - pose proof (getYDoc_unrejected n trim a Hun) as Hun1. revert Hun1.
    rewrite getYDoc_unfold by done. cbv zeta. fold w.
    rewrite (getYDoc_tx_large n _ w us s1) by done. cbv zeta.
    change (GPA.replay us) with state. fold snap. rewrite Hf.
    intros Hun1. eexists. split; [reflexivity|]. by repeat split.
  - intros a2 trim2 later s3 Hun2 Hg2 Hok.
    assert (GPA.replay (snap :: later) = foldl Y.applyUpdate Y.newDoc (us ++ later))
      as Hre.
    { unfold GPA.replay. rewrite foldl_app. cbn [foldl]. unfold snap.
      by rewrite Hlaw. }
    rewrite <- Hre. apply (getYDoc_loads n trim2 a2 (snap :: later) s3 Hun2 Hg2).
    by rewrite Hre.
Qed.

(** C10. [getYDoc] never rejects, in whatever state a schedule of
    submissions and turns has brought the chain of a new adaptor. When its
    transaction fails, because [getUpdates] rejects or because the
    consolidation write rejects, the error is printed and a fresh empty
    document is handed back, which is also what a load of an empty log
    hands back. *)
Theorem getYDoc_never_rejects sched a0 n trim a :
  GPA.tr a0 = [] →
  GPA.exec sched a0 = Some a →
  let w := GPA.env (GPA.quiesce a) in
  let T := default (GPA.trimSize a) trim in
  (∃ d a', GPA.getYDoc n trim a = (Fulfilled d, a')) ∧
  (∀ e s', db_getUpdates n (GPA.db w) = (Rejected e, s') →
     ∃ a', GPA.getYDoc n trim a = (Fulfilled Y.newDoc, a') ∧
       GPA.console (GPA.env a') = GPA.console w ++ [e]) ∧
  (∀ us s' e s'', db_getUpdates n (GPA.db w) = (Fulfilled us, s') →
     (T < Z.of_nat (length us))%Z →
     db_flushDocument n (Y.encodeStateAsUpdate (GPA.replay us)) s' = (Rejected e, s'') →
     ∃ a', GPA.getYDoc n trim a = (Fulfilled Y.newDoc, a') ∧
       GPA.console (GPA.env a') = GPA.console w ++ [e]) ∧
  (∀ s', db_getUpdates n (GPA.db w) = (Fulfilled [], s') → (0 ≤ T)%Z →
     ∃ a', GPA.getYDoc n trim a = (Fulfilled Y.newDoc, a') ∧
       GPA.console (GPA.env a') = GPA.console w).
Proof.
  intros H0 Hex w T.
  destruct (exec_serial sched a0 a H0 Hex) as (_ & Hun & _).
  rewrite getYDoc_unfold by done. simpl. fold w T. repeat split.
  - destruct (GPA.transact_body _ w) as [r w']. by eexists _, _.
  - intros e s' Hg. rewrite (getYDoc_tx_read_fails n T w e s') by done.
    by eexists.
  - intros us s' e s'' Hg Hlen Hf.
    rewrite (getYDoc_tx_large n T w us s') by done. rewrite Hf. by eexists.
  - intros s' Hg HT. rewrite (getYDoc_tx_small n T w [] s') by (done || simpl; lia).
    by eexists.
Qed.

(** C4. Whatever the schedule of submissions and turns, and whatever
    documents the transactions name: a transaction starts only once every
    transaction submitted before it has resolved, so at most one is running;
    the calls made on the store so far are the beginning of the calls that
    running the submitted functions one after the other, in submission
    order, makes; and once every transaction has resolved, results, store,
    trace and console are exactly those of that one-after-the-other run. *)
Theorem transactions_run_in_submission_order sched a0 a :
  GPA.tr a0 = [] →
  GPA.exec sched a0 = Some a →
  let fs := GPA.slot_f <$> GPA.tr a in
  GPA.fifo (GPA.tr a) ∧
  (∀ i j si sj, GPA.tr a !! i = Some si → GPA.tr a !! j = Some sj →
     GPA.is_running si = true → GPA.is_running sj = true → i = j) ∧
  (∃ later,
     GPA.calls (GPA.in_order fs (GPA.env a0)).2 = GPA.calls (GPA.env a) ++ later) ∧
  (Forall (λ s, GPA.is_done s = true) (GPA.tr a) →
     (GPA.tr a, GPA.env a) = GPA.in_order fs (GPA.env a0)).
Proof.
  intros H0 Hex fs. destruct (exec_serial sched a0 a H0 Hex) as (Hf & _ & _ & Hq).
  fold fs in Hq. split; [done|]. split; [|split].
  - intros i j si sj Hi Hj Hri Hrj.
    assert (∀ i j si sj, GPA.tr a !! i = Some si → GPA.tr a !! j = Some sj →
      GPA.is_running si = true → GPA.is_running sj = true → ¬ i < j) as Hlt.
    { clear -Hf. intros i j si sj Hi Hj Hri Hrj Hlt.
      assert (GPA.is_done si = true) as Hd.
      { eapply (Hf i j); eauto. unfold GPA.is_running in Hrj.
        unfold GPA.is_waiting. by destruct (GPA.slot_st sj). }
      unfold GPA.is_running in Hri. unfold GPA.is_done in Hd.
      by destruct (GPA.slot_st si). }
    destruct (lt_eq_lt_dec i j) as [[Hlt'| ->]|Hlt']; [|done|].
    + by destruct (Hlt i j si sj).
    + by destruct (Hlt j i sj si).
  - rewrite <- Hq. unfold GPA.quiesce.
    destruct (settle_all_grows (GPA.tr a) None (GPA.env a)) as (cs & es & Hc & _).
    destruct (GPA.settle_all None (GPA.tr a) (GPA.env a)) as [l w']. simpl in *.
    by exists cs.
  - intros Hd. rewrite <- Hq. unfold GPA.quiesce.
    by rewrite settle_all_done.
Qed.

(** C5. A transaction whose function rejects does not reject its promise:
    the error is printed and the promise is fulfilled with null. The chain
    goes on: some continuation of the schedule settles every submitted
    transaction, and however they get settled, no promise is rejected and
    the transactions submitted after the failed one have the results of
    their own functions, run in order on the store as the failed one left
    it; if it left the store as it found it, these are the results they
    would have had without it. *)
Theorem failed_transaction_is_isolated sched a0 a pre bad post pre' w1 e w2 :
  GPA.tr a0 = [] →
  GPA.exec sched a0 = Some a →
  GPA.slot_f <$> GPA.tr a = pre ++ bad :: post →
  GPA.in_order pre (GPA.env a0) = (pre', w1) →
  GPA.run_f bad w1 = (Rejected e, w2) →
  let after := GPA.in_order post (GPA.warn e w2) in
  (∃ rest a', GPA.exec rest a = Some a' ∧
     Forall (λ s, GPA.is_done s = true) (GPA.tr a') ∧
     GPA.slot_f <$> GPA.tr a' = GPA.slot_f <$> GPA.tr a) ∧
  (∀ rest a', GPA.exec rest a = Some a' →
     Forall (λ s, GPA.is_done s = true) (GPA.tr a') →
     GPA.slot_f <$> GPA.tr a' = GPA.slot_f <$> GPA.tr a →
     GPA.tr a' = pre' ++ GPA.Slot bad (GPA.Done (Fulfilled None)) :: after.1 ∧
     GPA.env a' = after.2 ∧
     e ∈ GPA.console (GPA.env a') ∧
     GPA.unrejected (GPA.tr a')) ∧
  (GPA.db w2 = GPA.db w1 → after.1 = (GPA.in_order post w1).1).
Proof.
  intros H0 Hex Hfs Hpre Hbad after.
  assert (GPA.in_order (pre ++ bad :: post) (GPA.env a0) =
          (pre' ++ GPA.Slot bad (GPA.Done (Fulfilled None)) :: after.1, after.2))
    as Hin.
  { pose proof (in_order_unrejected pre (GPA.env a0)) as Hun.
    unfold GPA.in_order in *. rewrite fmap_app, settle_all_app, Hpre.
    rewrite Hpre in Hun. simpl in Hun.
    rewrite (last_failure_unrejected pre' Hun).
    rewrite fmap_cons. simpl. unfold GPA.settle. simpl.
    unfold GPA.transact_body. rewrite Hbad. fold after.
    change (GPA.failure _) with (@None string).
    by destruct (GPA.settle_all None _ (GPA.warn e w2)). }
  split; [|split].
  - destruct (quiesce_reachable a) as [rest Hrest].
    exists rest, (GPA.quiesce a). split; [done|]. unfold GPA.quiesce.
    pose proof (settle_all_is_done None (GPA.tr a) (GPA.env a)) as Hd.
    pose proof (settle_all_slot_f None (GPA.tr a) (GPA.env a)) as Hf.
    by destruct (GPA.settle_all None (GPA.tr a) (GPA.env a)).
  - intros rest a' Hrest Hd Hsame.
    assert (GPA.exec (sched ++ rest) a0 = Some a') as Hall.
    { by rewrite exec_app, Hex. }
    destruct (exec_serial _ a0 a' H0 Hall) as (_ & Hun & _ & Hq).
    rewrite Hsame, Hfs, Hin in Hq. unfold GPA.quiesce in Hq.
    rewrite settle_all_done in Hq by done. simpl in Hq.
    injection Hq as Htr Henv. rewrite <- Htr, <- Henv.
    split; [done|]. split; [done|]. split; [|done].
    rewrite Henv. unfold after, GPA.in_order.
    destruct (settle_all_grows ((λ f, GPA.Slot f GPA.Waiting) <$> post) None
                (GPA.warn e w2)) as (cs & es & _ & Hl).
    rewrite Hl. simpl. set_solver.
  - intros Hdb. by apply in_order_db.
Qed.

End AdaptorClaims.


(** * The claims about the registry, whatever the provider *)
Section ServerClaims.
Context `{Y.Engine} {P : Type} `{!PersistenceProvider P}.
Implicit Types (st : YS.t (P:=P)).

(** Resolving a name that is in the registry touches the flag of the cached
    document and nothing else. *)
Lemma initDocument_cached nm nsp g st r :
  YS._documents st !! nm = Some r →
  YS.initDocument nm nsp g st =
    (Fulfilled r, YS.set_heap (alter (YS.set_gc (default true g)) r) st).
Proof.
  intros Hr. unfold YS.initDocument, YS.initDocument_enter.
  rewrite Hr. simpl. by rewrite Hr.
Qed.

(** C9. Resolving a name whose document exists hands back that same
    instance with its garbage-collection flag overwritten by the value of
    this resolve, true when none is given; the registry, the provider and
    the emitted events are as before, and the flag of the latest resolve is
    the one that stays. *)
Theorem initDocument_existing_overwrites_gc nm nsp g st r d :
  YS._documents st !! nm = Some r →
  YS.heap st !! r = Some d →
  let st' := (YS.initDocument nm nsp g st).2 in
  (YS.initDocument nm nsp g st).1 = Fulfilled r ∧
  YS.heap st' = <[r := YS.set_gc (default true g) d]> (YS.heap st) ∧
  YS.gc <$> YS.heap st' !! r = Some (default true g) ∧
  YS._documents st' = YS._documents st ∧
  YS.persistence st' = YS.persistence st ∧
  YS.emitted st' = YS.emitted st ∧
  YS.next_ref st' = YS.next_ref st ∧
  (∀ nsp2 g2,
     (YS.initDocument nm nsp2 g2 st').1 = Fulfilled r ∧
     YS.gc <$> YS.heap (YS.initDocument nm nsp2 g2 st').2 !! r
       = Some (default true g2)).
Proof.
  intros Hr Hd st'. unfold st'. rewrite (initDocument_cached nm nsp g st r Hr).
  simpl. split; [done|].
  assert (alter (YS.set_gc (default true g)) r (YS.heap st)
          = <[r := YS.set_gc (default true g) d]> (YS.heap st)) as Halt.
  { apply map_eq. intros i. rewrite lookup_alter, lookup_insert.
    destruct (decide (r = i)) as [->|]; [by rewrite Hd|done]. }
  rewrite Halt. split; [done|]. split; [by rewrite lookup_insert_eq|].
  repeat (split; [done|]). intros nsp2 g2.
  rewrite (initDocument_cached nm nsp2 g2 _ r) by done. simpl. split; [done|].
  rewrite !lookup_alter, !decide_True by done. by rewrite Hd.
Qed.

(** C6 fails on the code where the promise of the predicate rejects. With
    a predicate configured: when it answers false the client is told
    "Unauthorized"; when it rejects with [e], the middleware is rejected
    with [e], [next] is not called and the client is told nothing, neither
    "Unauthorized" nor anything else. Either way the connection handler
    does not run, so the registry, the documents, the provider and the
    emitted events are untouched and the socket is in no namespace. With no
    predicate configured the socket joins its namespace and the connection
    handler runs. *)
Theorem unauthenticated_connection_reaches_no_document socket nsp h st :
  (∀ auth, YS.configuration st ≫= YS.authenticate = Some auth →
     (auth h = Fulfilled false →
        YS.accept socket nsp h st =
          (Fulfilled (), YS.send (YS.ConnectError socket "Unauthorized") st)) ∧
     (∀ e, auth h = Rejected e →
        YS.accept socket nsp h st = (Rejected e, st) ∧
        YS.sent (YS.accept socket nsp h st).2 = YS.sent st) ∧
     (auth h ≠ Fulfilled true →
        let st' := (YS.accept socket nsp h st).2 in
        YS._documents st' = YS._documents st ∧ YS.heap st' = YS.heap st ∧
        YS.persistence st' = YS.persistence st ∧ YS.emitted st' = YS.emitted st ∧
        YS.sockets st' = YS.sockets st ∧ YS.listeners st' = YS.listeners st)) ∧
  (YS.configuration st ≫= YS.authenticate = None →
     YS.accept socket nsp h st =
       YS.on_connection socket nsp (YS.join socket nsp st)).
Proof.
  unfold YS.accept, YS.middleware. split.
  - intros auth ->. split; [by intros ->|]. split; [by intros e ->|].
    intros Hne. by destruct (auth h) as [[]|e].
  - by intros ->.
Qed.

(** Entering [initDocument] for a name that is not in the registry, with a
    provider configured: a new document is made and the function waits. *)
Lemma initDocument_enter_fresh nm nsp g st p :
  YS.persistence st = Some p →
  YS._documents st !! nm = None →
  YS.initDocument_enter nm nsp g st =
    (YS.Binding (YS.next_ref st),
     YS.set_heap (alter (YS.set_gc (default true g)) (YS.next_ref st))
       (YS.new_Document nm nsp st).2).
Proof.
  intros Hp Hn. unfold YS.initDocument_enter. rewrite Hn. simpl.
  by rewrite Hn, Hp.
Qed.

(** Two ['connection'] handlers for one room, the second entered while the
    first waits for [bindState]: each makes a document of its own. *)
Lemma connection_enter_twice nsp st p :
  YS.persistence st = Some p →
  YS._documents st !! replace_first "/yjs|" nsp = None →
  let r1 := YS.connection_enter nsp st in
  let r2 := YS.connection_enter nsp r1.2 in
  r1.1 = YS.Binding (YS.next_ref st) ∧
  r2.1 = YS.Binding (Datatypes.S (YS.next_ref st)) ∧
  YS.name <$> YS.heap r2.2 !! YS.next_ref st = Some (replace_first "/yjs|" nsp) ∧
  YS.name <$> YS.heap r2.2 !! Datatypes.S (YS.next_ref st)
    = Some (replace_first "/yjs|" nsp).
Proof.
  intros Hp Hn. unfold YS.connection_enter.
  rewrite (initDocument_enter_fresh _ nsp _ st p) by done. simpl.
  rewrite (initDocument_enter_fresh _ nsp _ _ p) by done. simpl.
  split; [done|]. split; [done|].
  split; repeat (first [rewrite lookup_alter | rewrite lookup_insert | case_decide];
                 try lia); done.
Qed.

End ServerClaims.

(** * Closing the connections of a room one at a time *)
Section Closing.
Context `{Y.Engine} {P : Type} `{!PersistenceProvider P}.
Implicit Types (st : YS.t (P:=P)) (socks rest : list YS.socket_id).

(** The transport's part of a close. *)
Lemma close_unfold s nsp doc st (X : gset YS.socket_id) :
  YS.sockets st !! nsp = Some X →
  YS.listeners st !! s = Some doc →
  YS.close s nsp st =
    YS.on_disconnect nsp doc
      (YS.set_listeners (delete s) (YS.set_sockets (insert nsp (X ∖ {[s]})) st)).
Proof.
  intros HX Hl. unfold YS.close, YS.fetchSockets. rewrite HX.
  cbn [default from_option YS.listeners YS.set_sockets]. by rewrite Hl.
Qed.

Lemma fetchSockets_left nsp st s (Y : gset YS.socket_id) :
  YS.fetchSockets nsp
    (YS.set_listeners (delete s) (YS.set_sockets (insert nsp Y) st)) = Y.
Proof.
  unfold YS.fetchSockets. cbn [YS.sockets YS.set_sockets YS.set_listeners].
  by rewrite lookup_insert_eq.
Qed.

(** A socket that is not the last of its namespace closes without a
    trace. *)
Lemma close_not_last s nsp doc st (X : gset YS.socket_id) :
  YS.sockets st !! nsp = Some X →
  X ∖ {[s]} ≠ ∅ →
  YS.listeners st !! s = Some doc →
  YS.close s nsp st =
    (Fulfilled (),
     YS.set_listeners (delete s) (YS.set_sockets (insert nsp (X ∖ {[s]})) st)).
Proof.
  intros HX Hne Hl. rewrite (close_unfold s nsp doc st X) by done.
  unfold YS.on_disconnect. rewrite fetchSockets_left.
  destruct (decide (size (X ∖ {[s]}) = 0)) as [Hz|Hz]; [|done].
  apply size_empty_inv in Hz. by apply leibniz_equiv in Hz.
Qed.

Lemma list_to_set_remove_head s (l : list YS.socket_id) :
  s ∉ l → ({[s]} ∪ list_to_set l) ∖ {[s]} =@{gset YS.socket_id} list_to_set l.
Proof.
  intros Hs. apply set_eq. intros x.
  rewrite elem_of_difference, elem_of_union, elem_of_singleton, elem_of_list_to_set.
  naive_solver.
Qed.

Lemma list_to_set_nonempty (l : list YS.socket_id) :
  l ≠ [] → list_to_set (C:=gset YS.socket_id) l ≠ ∅.
Proof.
  destruct l as [|x l]; [done|]. intros _ He.
  assert (x ∈ list_to_set (C:=gset YS.socket_id) (x :: l)) as Hx
    by (apply elem_of_list_to_set; left).
  rewrite He in Hx. by apply not_elem_of_empty in Hx.
Qed.

(** As long as a connection of the room remains, closing the others leaves
    the registry, the documents and the emitted events as they are. *)
Lemma close_all_not_last nsp doc socks : ∀ st rest,
  rest ≠ [] →
  NoDup (socks ++ rest) →
  YS.sockets st !! nsp = Some (list_to_set (socks ++ rest)) →
  (∀ s, s ∈ socks → YS.listeners st !! s = Some doc) →
  let st' := YS.close_all socks nsp st in
  YS._documents st' = YS._documents st ∧ YS.heap st' = YS.heap st ∧
  YS.emitted st' = YS.emitted st ∧ YS.persistence st' = YS.persistence st ∧
  YS.sockets st' !! nsp = Some (list_to_set rest) ∧
  (∀ s, s ∉ socks → YS.listeners st' !! s = YS.listeners st !! s).
Proof.
  induction socks as [|s socks IH]; intros st rest Hrest Hnd HX Hl; simpl.
  { by repeat split. }
  simpl in Hnd, HX. apply NoDup_cons in Hnd as [Hs Hnd].
  rewrite (close_not_last s nsp doc st _ HX); cycle 1.
  { rewrite list_to_set_remove_head by done. apply list_to_set_nonempty.
    intros [_ ->]%app_eq_nil. done. }
  { apply Hl. set_solver. }
  simpl. rewrite list_to_set_remove_head by done.
  match goal with |- context [YS.close_all socks nsp ?x] => set (st1 := x) end.
  destruct (IH st1 rest Hrest Hnd) as (Hd & Hh & He & Hp & HX' & Hl').
  { unfold st1. simpl. by rewrite lookup_insert_eq. }
  { intros s' Hs'. unfold st1. simpl. rewrite lookup_delete_ne; [apply Hl; set_solver|].
    intros ->. set_solver. }
  unfold YS.close_all in *. rewrite Hd, Hh, He, Hp, HX'. repeat split; try done.
  intros s' Hs'. rewrite Hl' by set_solver. unfold st1. simpl.
  rewrite lookup_delete_ne; [done|]. intros ->. set_solver.
Qed.

Lemma remove_only (s : YS.socket_id) : {[s]} ∖ {[s]} =@{gset YS.socket_id} ∅.
Proof.
  apply set_eq. intros x.
  rewrite elem_of_difference, elem_of_singleton, elem_of_empty. naive_solver.
Qed.

(** The last socket of a namespace closing, no provider configured: the
    event is emitted and that is all. *)
Lemma close_last_without_provider s nsp doc st :
  YS.sockets st !! nsp = Some {[s]} →
  YS.listeners st !! s = Some doc →
  YS.persistence st = None →
  YS.close s nsp st =
    (Fulfilled (),
     YS.emit (YS.AllDocumentConnectionsClosed doc)
       (YS.set_listeners (delete s) (YS.set_sockets (insert nsp ∅) st))).
Proof.
  intros HX Hl Hp. rewrite (close_unfold s nsp doc st {[s]}) by done.
  rewrite remove_only. unfold YS.on_disconnect.
  rewrite fetchSockets_left, size_empty, decide_True by done.
  cbn [YS.persistence YS.emit YS.set_listeners YS.set_sockets]. by rewrite Hp.
Qed.

(** The last socket of a namespace closing, a provider configured whose
    flush settles as [o]: the document is destroyed if the flush was
    fulfilled. *)
Lemma close_last_with_provider s nsp doc st p o p' :
  YS.sockets st !! nsp = Some {[s]} →
  YS.listeners st !! s = Some doc →
  YS.persistence st = Some p →
  provider_flushDocument (YS.name (YS.heap st !!! doc)) p = (o, p') →
  let st1 := YS.set_persistence (Some p')
    (YS.emit (YS.AllDocumentConnectionsClosed doc)
       (YS.set_listeners (delete s) (YS.set_sockets (insert nsp ∅) st))) in
  YS.close s nsp st =
    match o with
    | Fulfilled _ => (Fulfilled (), YS.destroy doc st1)
    | Rejected e => (Rejected e, st1)
    end.
Proof.
  intros HX Hl Hp Hf. rewrite (close_unfold s nsp doc st {[s]}) by done.
  rewrite remove_only. unfold YS.on_disconnect.
  rewrite fetchSockets_left, size_empty, decide_True by done.
  cbn [YS.persistence YS.emit YS.set_listeners YS.set_sockets YS.heap].
  rewrite Hp. unfold YS.writeState. rewrite Hf. by destruct o.
Qed.

End Closing.

(** * The lifecycle of a document under the generic adaptor *)
Section Lifecycle.
Context `{Y.Engine} {S : Type} `{!GenericPersistence S}.
Implicit Types (st : YS.t (P:=GPA.t (S:=S))).

(** The adaptor's flush is fulfilled whatever the store does, on a chain
    none of whose promises was rejected. *)
Lemma flushDocument_fulfils n (a : GPA.t (S:=S)) :
  GPA.unrejected (GPA.tr a) →
  (GPA.flushDocument n a).1 = Fulfilled ().
Proof.
  intros Hun. unfold GPA.flushDocument. rewrite getYDoc_unfold by done. simpl.
  by destruct (GPA.transact_body _ _).
Qed.

(** C1, as the code has it. Closing the connections of a room one at a
    time leaves the document, its registry entry and the emitted events
    alone until the last one closes. At the last close, with the generic
    adaptor configured as provider (none of whose promises was rejected, as
    is the case of every chain that starts empty), the document is
    destroyed whatever the store did with the flush: one
    all-document-connections-closed and then
    exactly one document-destroy event are emitted and exactly the
    document's registry entry is removed. With no provider configured, the
    last close emits all-document-connections-closed only and the document
    stays registered. *)
Theorem last_close_destroys_only_with_a_provider nsp doc d socks last st :
  NoDup (socks ++ [last]) →
  YS.sockets st !! nsp = Some (list_to_set (socks ++ [last])) →
  Forall (λ s, YS.listeners st !! s = Some doc) (socks ++ [last]) →
  YS.heap st !! doc = Some d →
  YS._documents st !! YS.name d = Some doc →
  let st' := YS.close_all (socks ++ [last]) nsp st in
  (∀ k, k ≤ length socks →
     let stk := YS.close_all (take k socks) nsp st in
     YS._documents stk = YS._documents st ∧ YS.heap stk = YS.heap st ∧
     YS.emitted stk = YS.emitted st) ∧
  (∀ a, YS.persistence st = Some a → GPA.unrejected (GPA.tr a) →
     YS._documents st' = delete (YS.name d) (YS._documents st) ∧
     size (YS._documents st') + 1 = size (YS._documents st) ∧
     YS.emitted st' = YS.emitted st ++
       [YS.AllDocumentConnectionsClosed doc; YS.DocumentDestroy doc] ∧
     YS.heap st' = <[doc := YS.set_destroyed d]> (YS.heap st)) ∧
  (YS.persistence st = None →
     YS._documents st' = YS._documents st ∧
     YS.emitted st' = YS.emitted st ++ [YS.AllDocumentConnectionsClosed doc] ∧
     YS.heap st' = YS.heap st).
Proof.
  intros Hnd HX Hl Hd Hreg st'. rewrite Forall_forall in Hl.
  assert (∀ k, k ≤ length socks →
    let stk := YS.close_all (take k socks) nsp st in
    YS._documents stk = YS._documents st ∧ YS.heap stk = YS.heap st ∧
    YS.emitted stk = YS.emitted st ∧ YS.persistence stk = YS.persistence st ∧
    YS.sockets stk !! nsp = Some (list_to_set (drop k socks ++ [last])) ∧
    (∀ s, s ∉ take k socks → YS.listeners stk !! s = YS.listeners st !! s))
    as Hbefore.
  { intros k Hk. apply (close_all_not_last nsp doc).
    - by destruct (drop k socks).
    - by rewrite app_assoc, take_drop.
    - by rewrite app_assoc, take_drop.
    - intros s Hs. apply Hl. apply elem_of_app. left.
      by eapply subseteq_take. }
  split; [intros k Hk; destruct (Hbefore k Hk) as (?&?&?&_); done|].
  destruct (Hbefore (length socks) (le_n _)) as (Hd1 & Hh1 & He1 & Hp1 & HX1 & Hl1).
  rewrite firstn_all in *. rewrite drop_all in HX1.
  rewrite app_nil_l, list_to_set_singleton_L in HX1.
  assert (YS.listeners (YS.close_all socks nsp st) !! last = Some doc) as Hll.
  { rewrite Hl1; [apply Hl; set_solver|].
    apply NoDup_app in Hnd as (_ & Hdis & _). intros Hin.
    apply (Hdis last Hin). set_solver. }
  assert (st' = (YS.close last nsp (YS.close_all socks nsp st)).2) as Hst'.
  { unfold st', YS.close_all. by rewrite foldl_app. }
  split.
  - intros a Ha Hun. rewrite Hst'.
    destruct (GPA.flushDocument
                (YS.name (YS.heap (YS.close_all socks nsp st) !!! doc)) a)
      as [o a'] eqn:Hf.
    pose proof (flushDocument_fulfils
                (YS.name (YS.heap (YS.close_all socks nsp st) !!! doc)) a Hun) as Ho.
    rewrite Hf in Ho. simpl in Ho. subst o.
    rewrite (close_last_with_provider last nsp doc _ a (Fulfilled ()) a');
      [|done|done|congruence|done].
    simpl. rewrite Hd1, Hh1, He1.
    rewrite (lookup_total_correct _ _ _ Hd).
    split; [done|]. split.
    { rewrite map_size_delete_Some by eauto.
      assert (size (YS._documents st) ≠ 0); [|lia].
      intros Hz%map_size_empty_inv. by rewrite Hz in Hreg. }
    split; [by rewrite <- !app_assoc|].
    apply map_eq. intros i. rewrite lookup_alter, lookup_insert.
    destruct (decide (doc = i)) as [->|]; [by rewrite Hd|done].
  - intros Hp. rewrite Hst'.
    rewrite (close_last_without_provider last nsp doc); [|done|done|congruence].
    simpl. by rewrite Hd1, Hh1, He1.
Qed.

End Lifecycle.

(** * The claims on concrete runs *)
Section Runs.
Import Sample.

(** C1 as stated fails: with no provider configured, the only connection
    of room "r" closes, no connection remains, and the document is still
    registered and not destroyed; no document-destroy event was emitted. *)
Lemma last_close_without_provider_keeps_document :
  let st1 := (YS.accept 1 "/yjs|r" ∅ plain).2 in
  let st2 := (YS.close 1 "/yjs|r" st1).2 in
  YS._documents st1 !! "r" = Some 0 ∧
  YS.fetchSockets "/yjs|r" st2 = ∅ ∧
  YS._documents st2 !! "r" = Some 0 ∧
  YS.destroyed <$> YS.heap st2 !! 0 = Some false ∧
  YS.emitted st2 =
    [YS.DocumentLoaded 0; YS.Connection 1 0; YS.AllDocumentConnectionsClosed 0].
Proof. vm_compute. done. Qed.

(** Two connections of room "r" on a store whose flush fails. *)
Lemma last_close_destroys_only_with_a_provider_witness :
  let st := (YS.accept 2 "/yjs|r" ∅
               (YS.accept 1 "/yjs|r" ∅
                  (persistent (Mem ∅ [] [] ["r"]))).2).2 in
  let st' := YS.close_all [1; 2] "/yjs|r" st in
  YS._documents st !! "r" = Some 0 ∧
  YS._documents st' = delete "r" (YS._documents st) ∧
  YS.emitted st' = YS.emitted st ++
    [YS.AllDocumentConnectionsClosed 0; YS.DocumentDestroy 0].
Proof.
  intros st st'. split; [reflexivity|].
  destruct (last_close_destroys_only_with_a_provider "/yjs|r" 0
              (YS.Doc "r" "/yjs|r" true (0%N : @Y.Doc engine) 1 false) [1] 2 st)
    as (_ & Hwith & _).
  - vm_compute. repeat constructor; set_solver.
  - vm_compute. reflexivity.
  - repeat constructor.
  - vm_compute. reflexivity.
  - vm_compute. reflexivity.
  - destruct (Hwith _ eq_refl) as (Hd & _ & He & _).
    + vm_compute. repeat constructor.
    + split; assumption.
Defined.

(** C2 as stated fails: flushing a document whose log has no entries reads
    the log and writes no snapshot. *)
Lemma flushDocument_of_empty_log_writes_nothing :
  let r := GPA.flushDocument "doc" (GPA.new (healthy [("doc", [])]) None) in
  r.1 = Fulfilled () ∧
  GPA.calls (GPA.env r.2) = [GetUpdates "doc"] ∧
  flush_count (GPA.calls (GPA.env r.2)) = 0.
Proof. vm_compute. done. Qed.

(** A log of three entries is flushed as the one snapshot they merge to. *)
Lemma flushDocument_consolidates_nonempty_log_witness :
  ∃ a',
    GPA.flushDocument "doc" (GPA.new (healthy [("doc", [1; 2; 4]%N)]) None)
      = (Fulfilled (), a') ∧
    GPA.calls (GPA.env a') = [GetUpdates "doc"; FlushDocument "doc" 7%N].
Proof.
  edestruct (flushDocument_consolidates_nonempty_log (H:=engine) "doc"
               (GPA.new (healthy [("doc", [1; 2; 4]%N)]) None) [1; 2; 4]%N)
    as (a' & made & Hr & Hc & Hne & _).
  { constructor. }
  { vm_compute. reflexivity. }
  exists a'. split; [exact Hr|].
  destruct (Hne ltac:(discriminate)) as [-> _]. exact Hc.
Defined.

(** The threshold is 2: a log of two entries is left alone, a log of three
    is consolidated. *)
Lemma getYDoc_compacts_strictly_above_trimSize_witness :
  (∃ a', GPA.getYDoc "doc" None (GPA.new (healthy [("doc", [1; 2]%N)]) (Some 2%Z))
           = (Fulfilled 3%N, a') ∧
         GPA.calls (GPA.env a') = [GetUpdates "doc"]) ∧
  (∃ d a', GPA.getYDoc "doc" None (GPA.new (healthy [("doc", [1; 2; 4]%N)]) (Some 2%Z))
           = (Fulfilled d, a') ∧
         GPA.calls (GPA.env a') = [GetUpdates "doc"; FlushDocument "doc" 7%N]).
Proof.
  split.
  - edestruct (getYDoc_compacts_strictly_above_trimSize (H:=engine) "doc" None
                 (GPA.new (healthy [("doc", [1; 2]%N)]) (Some 2%Z)) [1; 2]%N)
      as [Hsame _].
    { constructor. }
    { vm_compute. reflexivity. }
    destruct (Hsame eq_refl) as (a' & made & Hr & Hc & -> & _).
    exists a'. split; [exact Hr|exact Hc].
  - edestruct (getYDoc_compacts_strictly_above_trimSize (H:=engine) "doc" None
                 (GPA.new (healthy [("doc", [1; 2; 4]%N)]) (Some 2%Z)) [1; 2; 4]%N)
      as [_ Hmore].
    { constructor. }
    { vm_compute. reflexivity. }
    destruct (Hmore eq_refl) as (d & a' & made & Hr & Hc & -> & _).
    exists d, a'. split; [exact Hr|exact Hc].
Defined.

(** Set union as merge, threshold 2, a log of three entries: the load
    hands back 7 and leaves the snapshot 7 as the whole log; after 8 is
    stored, the next load reads the snapshot and 8 and hands back 15, which
    is what 1, 2, 4 and 8 merge to. *)
Lemma compaction_snapshot_replays_to_the_same_state_witness :
  let a0 := GPA.new (healthy [("doc", [1; 2; 4]%N)]) (Some 2%Z) in
  ∃ a1 a2 a3,
    GPA.getYDoc "doc" None a0 = (Fulfilled 7%N, a1) ∧
    GPA.calls (GPA.env a1) = [GetUpdates "doc"; FlushDocument "doc" 7%N] ∧
    logs (GPA.db (GPA.env a1)) !! "doc" = Some [7%N] ∧
    GPA.storeUpdate "doc" 8%N a1 = (Fulfilled (), a2) ∧
    logs (GPA.db (GPA.env a2)) !! "doc" = Some [7; 8]%N ∧
    GPA.getYDoc "doc" None a2 = (Fulfilled 15%N, a3).
Proof.
  intros a0.
  edestruct (compaction_snapshot_replays_to_the_same_state (H:=engine) "doc" None
               a0 [1; 2; 4]%N)
    as [(a1 & Hr & Hc & Hdb & _) Hlater].
  { intros d. reflexivity. }
  { constructor. }
  { vm_compute. reflexivity. }
  { vm_compute. reflexivity. }
  { vm_compute. reflexivity. }
  assert (a1 = (GPA.getYDoc "doc" None a0).2) as Ha1 by (by rewrite Hr).
  edestruct (Hlater (GPA.storeUpdate (H:=engine) "doc" 8%N a1).2 None [8%N])
    as [a3 Hl].
  { rewrite Ha1. vm_compute. repeat constructor. }
  { rewrite Ha1. vm_compute. reflexivity. }
  { left. rewrite Ha1. vm_compute. discriminate. }
  exists a1, (GPA.storeUpdate (H:=engine) "doc" 8%N a1).2, a3.
  split; [exact Hr|]. split; [exact Hc|].
  split; [rewrite Hdb; vm_compute; reflexivity|].
  split; [rewrite Ha1; vm_compute; reflexivity|].
  split; [rewrite Ha1; vm_compute; reflexivity|].
  exact Hl.
Defined.

(** A store that cannot be read: the load hands back an empty document and
    the error is printed. *)
Lemma getYDoc_never_rejects_witness :
  ∃ a', GPA.getYDoc "doc" None
          (GPA.new (Mem (list_to_map [("doc", [1; 2]%N)]) ["doc"] [] []) None)
          = (Fulfilled 0%N, a') ∧
        GPA.console (GPA.env a') = ["getUpdates"].
Proof.
  destruct (getYDoc_never_rejects (H:=engine) []
              (GPA.new (Mem (list_to_map [("doc", [1; 2]%N)]) ["doc"] [] []) None)
              "doc" None _ eq_refl eq_refl)
    as (_ & Hread & _).
  eapply Hread. vm_compute. reflexivity.
Defined.

(** A store for room "a", a flush for room "b" and a store for room "a",
    submitted in that order and advanced in turns mixed with the
    submissions: the store is called in that order. *)
Lemma transactions_run_in_submission_order_witness :
  let O1 := GPA.storeUpdate_tx "a" 1%N in
  let O2 := GPA.getYDoc_tx "b" 0 in
  let O3 := GPA.storeUpdate_tx "a" 2%N in
  let sched := [GPA.Submit O1; GPA.Submit O2; GPA.Step 0; GPA.Submit O3;
                GPA.Step 0; GPA.Step 0; GPA.Step 1; GPA.Step 1; GPA.Step 1;
                GPA.Step 1; GPA.Step 2; GPA.Step 2; GPA.Step 2] in
  ∃ a, GPA.exec sched (GPA.new (healthy [("b", [4]%N)]) None) = Some a ∧
    GPA.calls (GPA.env a) =
      [StoreUpdate "a" 1%N; GetUpdates "b"; FlushDocument "b" 4%N;
       StoreUpdate "a" 2%N] ∧
    (GPA.tr a, GPA.env a) =
      GPA.in_order [O1; O2; O3] (GPA.env (GPA.new (healthy [("b", [4]%N)]) None)).
Proof.
  intros O1 O2 O3 sched.
  destruct (GPA.exec sched (GPA.new (healthy [("b", [4]%N)]) None)) as [a|] eqn:Hex;
    [|vm_compute in Hex; discriminate].
  exists a. split; [reflexivity|].
  destruct (transactions_run_in_submission_order (H:=engine) sched
              (GPA.new (healthy [("b", [4]%N)]) None) a eq_refl Hex)
    as (_ & _ & _ & Hdone).
  vm_compute in Hex. injection Hex as <-.
  split; [vm_compute; reflexivity|]. apply Hdone. repeat constructor.
Defined.

(** The same three transactions on a store that cannot flush "b": the
    flush resolves with null, and the store that follows it still runs. *)
Lemma failed_transaction_is_isolated_witness :
  let O1 := GPA.storeUpdate_tx "a" 1%N in
  let O2 := GPA.getYDoc_tx "b" 0 in
  let O3 := GPA.storeUpdate_tx "a" 2%N in
  let a0 := GPA.new (Mem (list_to_map [("b", [4]%N)]) [] [] ["b"]) None in
  ∃ a rest a',
    GPA.exec [GPA.Submit O1; GPA.Submit O2; GPA.Step 0; GPA.Submit O3] a0 = Some a ∧
    GPA.exec rest a = Some a' ∧
    GPA.settlement <$> GPA.tr a' =
      [Fulfilled (Some GPA.VVoid); Fulfilled None; Fulfilled (Some GPA.VVoid)] ∧
    GPA.console (GPA.env a') = ["flushDocument"] ∧
    logs (GPA.db (GPA.env a')) !! "a" = Some [1; 2]%N.
Proof.
  intros O1 O2 O3 a0.
  destruct (GPA.exec [GPA.Submit O1; GPA.Submit O2; GPA.Step 0; GPA.Submit O3] a0)
    as [a|] eqn:Hex; [|vm_compute in Hex; discriminate].
  edestruct (failed_transaction_is_isolated (H:=engine)
               [GPA.Submit O1; GPA.Submit O2; GPA.Step 0; GPA.Submit O3]
               a0 a [O1] O2 [O3])
    as ((rest & a' & Hrest & Hdone & Hsame) & Hall & _).
  { reflexivity. }
  { exact Hex. }
  { vm_compute in Hex. injection Hex as <-. reflexivity. }
  { vm_compute. reflexivity. }
  { vm_compute. reflexivity. }
  exists a, rest, a'. split; [reflexivity|]. split; [exact Hrest|].
  destruct (Hall rest a' Hrest Hdone Hsame) as (Htr & Henv & _).
  rewrite Htr, Henv. vm_compute. done.
Defined.

(** A predicate whose promise rejects with "down": the middleware is
    rejected with "down" and the client is sent nothing, where a predicate
    that answers false has it told "Unauthorized". *)
Lemma unauthenticated_connection_reaches_no_document_witness :
  let st := guarded (λ _, Rejected "down") in
  let st0 := guarded (λ _, Fulfilled false) in
  YS.accept 1 "/yjs|r" ∅ st = (Rejected "down", st) ∧
  YS.sent (YS.accept 1 "/yjs|r" ∅ st).2 = [] ∧
  YS._documents (YS.accept 1 "/yjs|r" ∅ st).2 = ∅ ∧
  YS.sent (YS.accept 1 "/yjs|r" ∅ st0).2 = [YS.ConnectError 1 "Unauthorized"].
Proof.
  intros st st0.
  destruct (unauthenticated_connection_reaches_no_document (H:=engine)
              1 "/yjs|r" ∅ st) as [Hwith _].
  destruct (Hwith (λ _, Rejected "down") eq_refl) as (_ & Hrej & Hkeep).
  destruct (Hrej "down" eq_refl) as [Hr Hs].
  destruct (Hkeep ltac:(discriminate)) as (Hd & _).
  destruct (unauthenticated_connection_reaches_no_document (H:=engine)
              1 "/yjs|r" ∅ st0) as [Hwith0 _].
  destruct (Hwith0 (λ _, Fulfilled false) eq_refl) as (Hfalse & _).
  split; [exact Hr|]. split; [exact Hs|]. split; [exact Hd|].
  by rewrite (Hfalse eq_refl).
Defined.

(** C7 fails on the code. A provider is configured and two sockets connect
    to room "r"; the handler of the second starts while the handler of the
    first waits for [bindState]. Each handler makes a document named "r":
    the two connections hold different instances, document-loaded is
    emitted twice, and the registry keeps the second only. Run one after
    the other, the same two connections share one document. *)
Theorem concurrent_connections_get_two_documents :
  let nsp := "/yjs|r" in
  let st0 := persistent (healthy []) in
  let e1 := YS.connection_enter nsp (YS.join 1 nsp st0) in
  let e2 := YS.connection_enter nsp (YS.join 2 nsp e1.2) in
  let r1 := YS.connection_resume 1 nsp (YS.doc_of e1.1) e2.2 in
  let r2 := YS.connection_resume 2 nsp (YS.doc_of e2.1) r1.2 in
  let seq := (YS.accept 2 nsp ∅ (YS.accept 1 nsp ∅ st0).2).2 in
  (e1.1 = YS.Binding 0 ∧ e2.1 = YS.Binding 1 ∧
   r1.1 = Fulfilled () ∧ r2.1 = Fulfilled () ∧
   YS.fetchSockets nsp r2.2 = {[1; 2]} ∧
   YS.listeners r2.2 !! 1 = Some 0 ∧ YS.listeners r2.2 !! 2 = Some 1 ∧
   YS.name <$> YS.heap r2.2 !! 0 = Some "r" ∧
   YS.name <$> YS.heap r2.2 !! 1 = Some "r" ∧
   YS._documents r2.2 !! "r" = Some 1 ∧
   filter YS.is_loaded (YS.emitted r2.2) = [YS.DocumentLoaded 0; YS.DocumentLoaded 1]) ∧
  (YS.listeners seq !! 1 = Some 0 ∧ YS.listeners seq !! 2 = Some 0 ∧
   filter YS.is_loaded (YS.emitted seq) = [YS.DocumentLoaded 0]).
Proof. vm_compute. repeat split; reflexivity. Qed.

(** A document made with the flag left out, then resolved again with the
    flag off. *)
Lemma initDocument_existing_overwrites_gc_witness :
  let st := (YS.accept 1 "/yjs|r" ∅ plain).2 in
  YS.gc <$> YS.heap st !! 0 = Some true ∧
  (YS.initDocument "r" "/yjs|r" (Some false) st).1 = Fulfilled 0 ∧
  YS.gc <$> YS.heap (YS.initDocument "r" "/yjs|r" (Some false) st).2 !! 0
    = Some false.
Proof.
  intros st. split; [reflexivity|].
  edestruct (initDocument_existing_overwrites_gc (H:=engine)
               "r" "/yjs|r" (Some false) st 0)
    as (Hr & _ & Hgc & _).
  { reflexivity. }
  { vm_compute. reflexivity. }
  split; [exact Hr|exact Hgc].
Defined.

End Runs.

(** * More about the adaptor *)
Section AdaptorMore.
Context `{Y.Engine} {S : Type} `{!GenericPersistence S}.
Implicit Types (w : GPA.world (S:=S)) (a : GPA.t (S:=S)).

Lemma quiesce_settled a :
  Forall (λ s, GPA.is_done s = true) (GPA.tr a) → GPA.quiesce a = a.
Proof.
  intros Hd. unfold GPA.quiesce. rewrite settle_all_done by done. by destruct a.
Qed.

Lemma storeUpdate_unfold n u a :
  GPA.unrejected (GPA.tr a) →
  GPA.storeUpdate n u a =
  let q := GPA.quiesce a in
  let f := GPA.storeUpdate_tx n u in
  let '(r, w) := GPA.transact_body f (GPA.env q) in
  (Fulfilled (),
   {| GPA.env := w; GPA.tr := GPA.tr q ++ [GPA.Slot f (GPA.Done (Fulfilled r))];
      GPA.trimSize := GPA.trimSize a |}).
Proof.
  intros Hun. unfold GPA.storeUpdate.
  pose proof (await_transact (GPA.storeUpdate_tx n u) a Hun) as Ha.
  destruct (GPA._transact _ a) as [p a1]. simpl in Ha. rewrite Ha. clear Ha.
  simpl. by destruct (GPA.transact_body _ _) as [r w].
Qed.

Lemma storeUpdate_tx_body n u w :
  GPA.transact_body (GPA.storeUpdate_tx n u) w =
  match db_storeUpdate n u (GPA.db w) with
  | (Fulfilled _, s') =>
      (Some GPA.VVoid, GPA.World s' (GPA.calls w ++ [StoreUpdate n u]) (GPA.console w))
  | (Rejected e, s') =>
      (None, GPA.World s' (GPA.calls w ++ [StoreUpdate n u]) (GPA.console w ++ [e]))
  end.
Proof.
  unfold GPA.storeUpdate_tx. rewrite transact_body_call.
  unfold GPA.call_db. simpl.
  by destruct (db_storeUpdate n u (GPA.db w)) as [[[]|e] s'].
Qed.

(** An awaited method leaves every task of the chain settled and none
    rejected. *)
Lemma quiesce_all_done a :
  Forall (λ s, GPA.is_done s = true) (GPA.tr (GPA.quiesce a)).
Proof.
  unfold GPA.quiesce.
  pose proof (settle_all_is_done None (GPA.tr a) (GPA.env a)) as Hd.
  by destruct (GPA.settle_all None (GPA.tr a) (GPA.env a)).
Qed.

Lemma quiesce_unrejected a :
  GPA.unrejected (GPA.tr a) → GPA.unrejected (GPA.tr (GPA.quiesce a)).
Proof.
  intros Hun. unfold GPA.quiesce.
  pose proof (settle_all_unrejected (GPA.tr a) (GPA.env a) Hun) as Hd.
  by destruct (GPA.settle_all None (GPA.tr a) (GPA.env a)).
Qed.

(** X1. [storeUpdate] never rejects, in whatever state a schedule has
    brought the chain of a new adaptor. It makes exactly one call on the
    store, [db.storeUpdate] with the name and the update it was given, and
    none that reads or consolidates the log; when that call rejects the
    error is printed, otherwise nothing is. Afterwards every task of the
    chain is settled. *)
Theorem storeUpdate_makes_one_call_and_never_rejects sched a0 n u a :
  GPA.tr a0 = [] →
  GPA.exec sched a0 = Some a →
  let w := GPA.env (GPA.quiesce a) in
  ∃ a', GPA.storeUpdate n u a = (Fulfilled (), a') ∧
    GPA.calls (GPA.env a') = GPA.calls w ++ [StoreUpdate n u] ∧
    flush_count (GPA.calls (GPA.env a')) = flush_count (GPA.calls w) ∧
    GPA.db (GPA.env a') = (db_storeUpdate n u (GPA.db w)).2 ∧
    (∀ s', db_storeUpdate n u (GPA.db w) = (Fulfilled (), s') →
       GPA.console (GPA.env a') = GPA.console w) ∧
    (∀ e s', db_storeUpdate n u (GPA.db w) = (Rejected e, s') →
       GPA.console (GPA.env a') = GPA.console w ++ [e]) ∧
    Forall (λ s, GPA.is_done s = true) (GPA.tr a') ∧
    GPA.unrejected (GPA.tr a').
Proof.
  intros H0 Hex w.
  destruct (exec_serial sched a0 a H0 Hex) as (_ & Hun & _).
  rewrite storeUpdate_unfold by done. simpl. fold w.
  rewrite storeUpdate_tx_body.
  pose proof (quiesce_all_done a) as Hd.
  pose proof (quiesce_unrejected a Hun) as Hu.
  destruct (db_storeUpdate n u (GPA.db w)) as [[[]|e] s'] eqn:Hs;
    (eexists; split; [done|]); simpl;
    (split; [done|]);
    (split; [unfold flush_count; rewrite filter_app; simpl;
             by rewrite length_app, Nat.add_0_r|]);
    (split; [done|]);
    (split; [by intros ? [=]|]);
    (split; [by intros ? ? [=]; subst|]);
    (split; apply Forall_app; split; try done; by repeat constructor).
Qed.

(** X2. Whenever its transaction succeeds, [getYDoc] hands back the
    document the stored log replays to and prints nothing: both when the
    log is within the threshold and nothing is written, and when it is
    above the threshold and the consolidation write is fulfilled. *)
Theorem getYDoc_returns_the_replayed_log n trim a us s' :
  let w := GPA.env (GPA.quiesce a) in
  let T := default (GPA.trimSize a) trim in
  GPA.unrejected (GPA.tr a) →
  db_getUpdates n (GPA.db w) = (Fulfilled us, s') →
  ((Z.of_nat (length us) ≤ T)%Z ∨
   ∃ s'', db_flushDocument n (Y.encodeStateAsUpdate (GPA.replay us)) s'
            = (Fulfilled (), s'')) →
  ∃ a', GPA.getYDoc n trim a = (Fulfilled (GPA.replay us), a') ∧
    GPA.console (GPA.env a') = GPA.console w.
Proof.
  intros w T Hun Hg Hok. rewrite getYDoc_unfold by done. simpl. fold w T.
  destruct (Z.le_gt_cases (Z.of_nat (length us)) T) as [Hle|Hgt].
  - rewrite (getYDoc_tx_small n T w us s') by done. by eexists.
  - destruct Hok as [Hle|[s'' Hf]]; [lia|].
    rewrite (getYDoc_tx_large n T w us s') by (done || lia). rewrite Hf.
    by eexists.
Qed.

(** X3. An adaptor made without a threshold uses 500: its loads leave a
    log of up to 500 entries alone and consolidate any longer log with
    exactly one write. *)
Theorem default_trimSize_is_500 (s : S) n us s' :
  db_getUpdates n s = (Fulfilled us, s') →
  let r := GPA.getYDoc n None (GPA.new s None) in
  (length us ≤ 500 →
     r.1 = Fulfilled (GPA.replay us) ∧
     GPA.calls (GPA.env r.2) = [GetUpdates n]) ∧
  (500 < length us →
     GPA.calls (GPA.env r.2) =
       [GetUpdates n; FlushDocument n (Y.encodeStateAsUpdate (GPA.replay us))]).
Proof.
  intros Hg r. unfold r. rewrite getYDoc_unfold by constructor. simpl.
  split; intros Hlen.
  - rewrite (getYDoc_tx_small n 500 (GPA.World s [] []) us s') by (done || lia).
    done.
  - rewrite (getYDoc_tx_large n 500 (GPA.World s [] []) us s') by (done || lia).
    simpl. by destruct (db_flushDocument _ _ s') as [[[]|e] s''].
Qed.

End AdaptorMore.

(** * The room name of a namespace *)
Section RoomName.

Lemma prefix_append (pat s : string) : String.prefix pat (pat +:+ s) = true.
Proof.
  induction pat as [|c pat IH]; simpl; [by destruct s|].
  by destruct (Ascii.ascii_dec c c).
Qed.

Lemma prefix_inv (pat s : string) :
  String.prefix pat s = true → ∃ b, s = pat +:+ b.
Proof.
  revert s. induction pat as [|c pat IH]; intros s; simpl.
  - intros _. by exists s.
  - destruct s as [|c' s]; [done|]. simpl.
    destruct (Ascii.ascii_dec c c') as [->|]; [|done].
    intros [b ->]%IH. by exists b.
Qed.

Lemma substring_all (s : string) : String.substring 0 (String.length s) s = s.
Proof. induction s as [|c s IH]; simpl; [done|]. by rewrite IH. Qed.

Lemma substring_append (pat s : string) :
  String.substring (String.length pat)
    (String.length (pat +:+ s) - String.length pat) (pat +:+ s) = s.
Proof.
  induction pat as [|c pat IH]; simpl.
  - rewrite Nat.sub_0_r. apply substring_all.
  - apply IH.
Qed.

Lemma replace_first_unfold (pat s : string) :
  replace_first pat s =
  if String.prefix pat s
  then String.substring (String.length pat) (String.length s - String.length pat) s
  else match s with
       | EmptyString => EmptyString
       | String c s' => String c (replace_first pat s')
       end.
Proof. by destruct s. Qed.

Lemma replace_first_append (pat s : string) : replace_first pat (pat +:+ s) = s.
Proof. rewrite replace_first_unfold, prefix_append. apply substring_append. Qed.

(** X4. A string that starts with the pattern loses exactly that start:
    the room of namespace ["/yjs|" ++ room] is [room], whatever [room] is
    (also when it holds the pattern again), so different namespaces of the
    dynamic namespace never share a room. *)
Theorem replace_first_strips_the_prefix (pat s : string) :
  replace_first pat (pat +:+ s) = s ∧
  (∀ s2, replace_first pat (pat +:+ s) = replace_first pat (pat +:+ s2) →
     pat +:+ s = pat +:+ s2).
Proof.
  split; [apply replace_first_append|]. intros s2.
  rewrite !replace_first_append. by intros ->.
Qed.

(** X5. A string in which the pattern does not occur is left as it is. *)
Theorem replace_first_without_occurrence (pat s : string) :
  (∀ a b, s ≠ a +:+ pat +:+ b) → replace_first pat s = s.
Proof.
  induction s as [|c s IH]; intros Hno; rewrite replace_first_unfold.
  - destruct (String.prefix pat "") eqn:Hp; [|done].
    apply prefix_inv in Hp as [b Hb]. by destruct (Hno "" b).
  - destruct (String.prefix pat (String c s)) eqn:Hp.
    + apply prefix_inv in Hp as [b Hb]. by destruct (Hno "" b).
    + rewrite IH; [done|]. intros a b ->. by apply (Hno (String c a) b).
Qed.

End RoomName.

(** * More about the registry, whatever the provider *)

Ltac ys_simpl :=
  cbn [YS._documents YS.persistence YS.configuration YS.heap YS.next_ref
       YS.emitted YS.sockets YS.listeners YS.sent YS.set_documents
       YS.set_persistence YS.set_heap YS.set_sockets YS.set_listeners YS.send
       YS.emit YS.new_Document YS.loaded YS.connected YS.join YS.onDestroy
       YS.destroy fst snd].

Section ServerMore.
Context `{Y.Engine} {P : Type} `{!PersistenceProvider P}.
Implicit Types (st : YS.t (P:=P)).

(** The state in which [initDocument] reaches [bindState] for a new name. *)
Lemma initDocument_fresh nm nsp g st :
  YS._documents st !! nm = None →
  let n0 := YS.next_ref st in
  let st2 := YS.set_heap (alter (YS.set_gc (default true g)) n0)
               (YS.new_Document nm nsp st).2 in
  YS.initDocument nm nsp g st =
    match YS.persistence st with
    | None => (Fulfilled n0, YS.loaded nm n0 st2)
    | Some p =>
        match YS.bindState nm n0 p st2 with
        | (Fulfilled _, p', st') =>
            (Fulfilled n0, YS.loaded nm n0 (YS.set_persistence (Some p') st'))
        | (Rejected e, p', st') => (Rejected e, YS.set_persistence (Some p') st')
        end
    end.
Proof.
  intros Hn n0 st2. subst n0 st2. unfold YS.initDocument.
  destruct (YS.persistence st) as [p|] eqn:Hp.
  - rewrite (initDocument_enter_fresh nm nsp g st p) by done.
    unfold YS.initDocument_bind. ys_simpl. by rewrite Hp.
  - unfold YS.initDocument_enter. rewrite Hn. ys_simpl. by rewrite Hn, Hp.
Qed.

Lemma fresh_heap nm nsp g st :
  YS.heap (YS.set_heap (alter (YS.set_gc (default true g)) (YS.next_ref st))
             (YS.new_Document nm nsp st).2) =
  <[YS.next_ref st := YS.Doc nm nsp (default true g) Y.newDoc 0 false]> (YS.heap st).
Proof.
  ys_simpl. apply map_eq. intros i. rewrite lookup_alter, !lookup_insert.
  rewrite (decide_True (P:=YS.next_ref st = YS.next_ref st)) by done.
  by repeat case_decide.
Qed.

(** What [bindState] leaves alone, however it ends. *)
Lemma bindState_frame n doc p st o p' st' :
  YS.bindState n doc p st = (o, p', st') →
  YS._documents st' = YS._documents st ∧ YS.emitted st' = YS.emitted st ∧
  YS.next_ref st' = YS.next_ref st ∧ YS.sockets st' = YS.sockets st ∧
  YS.listeners st' = YS.listeners st ∧ YS.sent st' = YS.sent st ∧
  YS.configuration st' = YS.configuration st ∧
  (∀ r, YS.name <$> YS.heap st' !! r = YS.name <$> YS.heap st !! r) ∧
  (∀ r, YS.gc <$> YS.heap st' !! r = YS.gc <$> YS.heap st !! r) ∧
  (∀ r, YS.destroyed <$> YS.heap st' !! r = YS.destroyed <$> YS.heap st !! r).
Proof.
  unfold YS.bindState.
  destruct (provider_getYDoc n p) as [[d|e] p1]; [|by intros [= <- <- <-]].
  destruct (provider_storeUpdate n _ p1) as [[[]|e] p2]; [|by intros [= <- <- <-]].
  intros [= <- <- <-]. ys_simpl. repeat (split; [done|]).
  repeat split; intros r; rewrite lookup_alter; case_decide; try done;
    subst; by destruct (YS.heap st !! _).
Qed.

(** The state in which [bindState] is reached, field by field. *)
Lemma fresh_state nm nsp g st :
  let st2 := YS.set_heap (alter (YS.set_gc (default true g)) (YS.next_ref st))
               (YS.new_Document nm nsp st).2 in
  YS._documents st2 = YS._documents st ∧ YS.persistence st2 = YS.persistence st ∧
  YS.configuration st2 = YS.configuration st ∧
  YS.heap st2 =
    <[YS.next_ref st := YS.Doc nm nsp (default true g) Y.newDoc 0 false]> (YS.heap st) ∧
  YS.next_ref st2 = Datatypes.S (YS.next_ref st) ∧
  YS.emitted st2 = YS.emitted st ∧ YS.sockets st2 = YS.sockets st ∧
  YS.listeners st2 = YS.listeners st ∧ YS.sent st2 = YS.sent st.
Proof.
  intros st2. pose proof (fresh_heap nm nsp g st) as Hh. by repeat split.
Qed.

(** What [initDocument] leaves alone, however it ends. *)
Lemma initDocument_frame nm nsp g st o st' :
  YS.initDocument nm nsp g st = (o, st') →
  YS.sockets st' = YS.sockets st ∧ YS.listeners st' = YS.listeners st ∧
  YS.sent st' = YS.sent st ∧ YS.configuration st' = YS.configuration st ∧
  (∀ n, n ≠ nm → YS._documents st' !! n = YS._documents st !! n) ∧
  (∀ r, r ≠ YS.next_ref st →
     YS.name <$> YS.heap st' !! r = YS.name <$> YS.heap st !! r ∧
     YS.destroyed <$> YS.heap st' !! r = YS.destroyed <$> YS.heap st !! r) ∧
  YS.next_ref st ≤ YS.next_ref st'.
Proof.
  destruct (YS._documents st !! nm) as [r|] eqn:Hr.
  - rewrite (initDocument_cached nm nsp g st r Hr). intros [= <- <-]. ys_simpl.
    repeat (split; [done|]). split; [|done]. intros r' _.
    rewrite lookup_alter. case_decide; [|done]. subst.
    by destruct (YS.heap st !! r').
  - rewrite initDocument_fresh by done. cbv zeta.
    destruct (fresh_state nm nsp g st) as (F1 & F2 & F3 & F4 & F5 & F6 & F7 & F8 & F9).
    set (st2 := YS.set_heap _ (YS.new_Document nm nsp st).2) in *. clearbody st2.
    assert (∀ r, r ≠ YS.next_ref st →
      YS.name <$> YS.heap st2 !! r = YS.name <$> YS.heap st !! r ∧
      YS.destroyed <$> YS.heap st2 !! r = YS.destroyed <$> YS.heap st !! r) as Hfr.
    { intros r Hne. by rewrite F4, lookup_insert_ne. }
    destruct (YS.persistence st) as [p|].
    + destruct (YS.bindState nm (YS.next_ref st) p st2) as [[o1 p'] st3] eqn:Hb.
      apply bindState_frame in Hb
        as (Hd & He & Hn & Hs & Hl & Hse & Hc & Hna & _ & Hde).
      assert (∀ r, r ≠ YS.next_ref st →
        YS.name <$> YS.heap st3 !! r = YS.name <$> YS.heap st !! r ∧
        YS.destroyed <$> YS.heap st3 !! r = YS.destroyed <$> YS.heap st !! r) as Hfr3.
      { intros r Hne. rewrite Hna, Hde. by apply Hfr. }
      destruct o1 as [[]|e]; intros [= <- <-]; ys_simpl.
      * rewrite Hs, Hl, Hse, Hc, Hd, Hn, F1, F3, F5, F7, F8, F9.
        repeat split; try done; try lia; try (by apply Hfr3).
        intros n Hne. by rewrite lookup_insert_ne.
      * rewrite Hs, Hl, Hse, Hc, Hd, Hn, F1, F3, F5, F7, F8, F9.
        repeat split; try done; try lia; by apply Hfr3.
    + intros [= <- <-]. ys_simpl. rewrite F1, F3, F5, F7, F8, F9.
      repeat split; try done; try lia; try (by apply Hfr).
      intros n Hne. by rewrite lookup_insert_ne.
Qed.

(** X6. When [initDocument] is fulfilled, the document it hands back is the
    one registered under the name, with the flag of this call (true when
    none is given); no other name of the registry is touched. Either the
    document was registered before and nothing is emitted, or it is a new
    one and document-loaded is emitted once. *)
Theorem initDocument_registers_what_it_returns nm nsp g st r st' :
  (∀ n r, YS._documents st !! n = Some r → is_Some (YS.heap st !! r)) →
  YS.initDocument nm nsp g st = (Fulfilled r, st') →
  YS._documents st' !! nm = Some r ∧
  (∀ n, n ≠ nm → YS._documents st' !! n = YS._documents st !! n) ∧
  YS.gc <$> YS.heap st' !! r = Some (default true g) ∧
  ((YS._documents st !! nm = Some r ∧ YS.emitted st' = YS.emitted st) ∨
   (YS._documents st !! nm = None ∧ r = YS.next_ref st ∧
    YS.emitted st' = YS.emitted st ++ [YS.DocumentLoaded r])).
Proof.
  intros Hwf Hinit.
  pose proof (initDocument_frame _ _ _ _ _ _ Hinit) as (_ & _ & _ & _ & Hfr & _).
  destruct (YS._documents st !! nm) as [r0|] eqn:Hr.
  - rewrite (initDocument_cached nm nsp g st r0 Hr) in Hinit.
    injection Hinit as <- <-. ys_simpl. split; [done|]. split; [done|].
    destruct (Hwf nm r0 Hr) as [d Hd].
    rewrite lookup_alter, decide_True, Hd by done. split; [done|]. by left.
  - rewrite initDocument_fresh in Hinit by done. cbv zeta in Hinit.
    destruct (fresh_state nm nsp g st) as (F1 & F2 & F3 & F4 & F5 & F6 & F7 & F8 & F9).
    set (st2 := YS.set_heap _ (YS.new_Document nm nsp st).2) in *. clearbody st2.
    destruct (YS.persistence st) as [p|].
    + destruct (YS.bindState nm (YS.next_ref st) p st2) as [[o1 p'] st3] eqn:Hb.
      apply bindState_frame in Hb
        as (Hd & He & _ & _ & _ & _ & _ & Hna & Hgc & _).
      destruct o1 as [[]|e]; [|done]. injection Hinit as <- <-. ys_simpl.
      rewrite lookup_insert_eq. split; [done|]. split; [done|].
      rewrite Hgc, F4, lookup_insert_eq. split; [done|].
      right. by rewrite He, F6.
    + injection Hinit as <- <-. ys_simpl.
      rewrite lookup_insert_eq. split; [done|]. split; [done|].
      rewrite F4, lookup_insert_eq. split; [done|]. right. by rewrite F6.
Qed.

(** X7. When [bindState] rejects for a new name, because the provider's
    [getYDoc] or its [storeUpdate] rejects, [initDocument] rejects with the
    same error: the name is not registered and nothing is emitted, although
    a document was made for it; after a rejected [getYDoc] the provider's
    [storeUpdate] is not called. *)
Theorem initDocument_rejected_bind_registers_nothing nm nsp g st p :
  YS._documents st !! nm = None →
  YS.persistence st = Some p →
  let made := YS.Doc nm nsp (default true g) Y.newDoc 0 false in
  (∀ e p1, provider_getYDoc nm p = (Rejected e, p1) →
     ∃ st', YS.initDocument nm nsp g st = (Rejected e, st') ∧
       YS._documents st' = YS._documents st ∧ YS.emitted st' = YS.emitted st ∧
       YS.persistence st' = Some p1 ∧
       YS.heap st' = <[YS.next_ref st := made]> (YS.heap st)) ∧
  (∀ d p1 e p2, provider_getYDoc nm p = (Fulfilled d, p1) →
     provider_storeUpdate nm (Y.encodeStateAsUpdate Y.newDoc) p1 = (Rejected e, p2) →
     ∃ st', YS.initDocument nm nsp g st = (Rejected e, st') ∧
       YS._documents st' = YS._documents st ∧ YS.emitted st' = YS.emitted st ∧
       YS.persistence st' = Some p2 ∧
       YS.heap st' = <[YS.next_ref st := made]> (YS.heap st)).
Proof.
  intros Hn Hp made. rewrite initDocument_fresh by done. cbv zeta. rewrite Hp.
  destruct (fresh_state nm nsp g st) as (F1 & F2 & F3 & F4 & F5 & F6 & F7 & F8 & F9).
  set (st2 := YS.set_heap _ (YS.new_Document nm nsp st).2) in *. clearbody st2.
  unfold YS.bindState. split.
  - intros e p1 ->. eexists. split; [done|]. ys_simpl. by rewrite F1, F4, F6.
  - intros d p1 e p2 ->.
    rewrite F4, lookup_total_insert_eq. cbn [YS.ydoc]. intros ->.
    eexists. split; [done|]. ys_simpl. by rewrite F1, F4, F6.
Qed.

End ServerMore.

(** * What the registry keeps when handlers run one at a time *)
Section ServerInvariants.
Context `{Y.Engine} {P : Type} `{!PersistenceProvider P}.
Implicit Types (st : YS.t (P:=P)).

(** The ['connection'] handler is [initDocument] and then the listeners. *)
Lemma on_connection_unfold socket nsp st :
  YS.on_connection socket nsp st =
  match YS.initDocument (replace_first "/yjs|" nsp) nsp
          (YS.configuration st ≫= YS.gcEnabled) st with
  | (Fulfilled doc, st1) => (Fulfilled (), YS.connected socket doc st1)
  | (Rejected e, st1) => (Rejected e, st1)
  end.
Proof.
  unfold YS.on_connection, YS.connection_enter, YS.connection_resume,
    YS.initDocument.
  destruct (YS.initDocument_enter _ _ _ st) as [[doc|doc] st1]; [done|].
  by destruct (YS.initDocument_bind _ doc st1) as [[d|e] st2].
Qed.

(** [initDocument] keeps the registry in order, and what it hands back is
    registered under the name. *)
Lemma initDocument_registry_ok nm nsp g st o st' :
  YS.registry_ok st →
  YS.initDocument nm nsp g st = (o, st') →
  YS.registry_ok st' ∧
  (∀ r, o = Fulfilled r → YS._documents st' !! nm = Some r) ∧
  (∀ e, o = Rejected e → YS._documents st' = YS._documents st).
Proof.
  intros [Hreg Hlt] Hinit.
  destruct (YS._documents st !! nm) as [r0|] eqn:Hr.
  - rewrite (initDocument_cached nm nsp g st r0 Hr) in Hinit.
    injection Hinit as <- <-. split; [|by split; [intros r [= <-]|]].
    split; ys_simpl.
    + intros n r Hn. destruct (Hreg n r Hn) as (d & Hd & Hna & Hde).
      rewrite lookup_alter. case_decide; [subst; rewrite Hd|]; eauto.
    + intros r. rewrite lookup_alter. case_decide; [subst|]; [|by apply Hlt].
      intros [d Hd]%fmap_is_Some. by apply Hlt.
  - rewrite initDocument_fresh in Hinit by done. cbv zeta in Hinit.
    destruct (fresh_state nm nsp g st) as (F1 & F2 & F3 & F4 & F5 & F6 & F7 & F8 & F9).
    set (st2 := YS.set_heap _ (YS.new_Document nm nsp st).2) in *. clearbody st2.
    assert (YS.registry_ok st2) as [Hreg2 Hlt2].
    { split.
      - intros n r. rewrite F1. intros Hn.
        destruct (Hreg n r Hn) as (d & Hd & Hna & Hde).
        rewrite F4, lookup_insert_ne; [eauto|].
        assert (r < YS.next_ref st) by (apply Hlt; eauto). lia.
      - intros r. rewrite F4, F5, lookup_insert. case_decide; [lia|].
        intros Hs. apply Hlt in Hs. lia. }
    assert (∀ st3, YS._documents st3 = YS._documents st2 →
              YS.next_ref st3 = YS.next_ref st2 →
              (∀ r, YS.name <$> YS.heap st3 !! r = YS.name <$> YS.heap st2 !! r) →
              (∀ r, YS.destroyed <$> YS.heap st3 !! r = YS.destroyed <$> YS.heap st2 !! r) →
              YS.registry_ok st3 ∧
              ∃ d, YS.heap st3 !! YS.next_ref st = Some d ∧ YS.name d = nm ∧
                   YS.destroyed d = false) as Hkeep.
    { intros st3 Hd Hn Hna Hde. split; [split|].
      - intros n r. rewrite Hd. intros Hnr.
        destruct (Hreg2 n r Hnr) as (d & Hd2 & Hna2 & Hde2).
        specialize (Hna r). specialize (Hde r). rewrite Hd2 in Hna, Hde.
        destruct (YS.heap st3 !! r) as [d3|]; [|done].
        cbn in Hna, Hde. injection Hna as Hna. injection Hde as Hde.
        exists d3. repeat split; congruence.
      - intros r Hs. rewrite Hn. apply Hlt2.
        apply (fmap_is_Some YS.name). rewrite <- Hna. by apply fmap_is_Some.
      - specialize (Hna (YS.next_ref st)). specialize (Hde (YS.next_ref st)).
        rewrite F4, lookup_insert_eq in Hna, Hde.
        destruct (YS.heap st3 !! YS.next_ref st) as [d3|]; [|done].
        cbn in Hna, Hde. injection Hna as Hna. injection Hde as Hde.
        exists d3. by repeat split. }
    assert (∀ st3, YS.registry_ok st3 →
              (∃ d, YS.heap st3 !! YS.next_ref st = Some d ∧ YS.name d = nm ∧
                    YS.destroyed d = false) →
              YS.registry_ok
                (YS.set_documents (insert nm (YS.next_ref st)) st3)) as Hins.
    { intros st3 [Hreg3 Hlt3] Hnew. split; ys_simpl; [|done].
      intros n r. rewrite lookup_insert. case_decide; [|by apply Hreg3].
      intros [= <-]. by subst. }
    destruct (YS.persistence st) as [p|].
    + destruct (YS.bindState nm (YS.next_ref st) p st2) as [[o1 p'] st3] eqn:Hb.
      apply bindState_frame in Hb
        as (Hd & He & Hn & Hs & Hl & Hse & Hc & Hna & _ & Hde).
      destruct (Hkeep st3 Hd Hn Hna Hde) as [Hok3 Hnew3].
      destruct o1 as [[]|e]; injection Hinit as <- <-.
      * split; [|split; [|done]].
        -- apply (Hins (YS.set_persistence (Some p') st3)); [|done].
           destruct Hok3 as [? ?]. by split.
        -- intros r [= <-]. ys_simpl. by rewrite lookup_insert_eq.
      * split; [|split; [done|]].
        -- destruct Hok3 as [? ?]. by split.
        -- intros _ _. ys_simpl. by rewrite Hd, F1.
    + injection Hinit as <- <-. split; [|split; [|done]].
      * apply (Hins st2); [by split|].
        rewrite F4, lookup_insert_eq. eauto.
      * intros r [= <-]. ys_simpl. by rewrite lookup_insert_eq.
Qed.

(** The ['disconnect'] listener keeps the registry in order, whatever
    document it closes over. *)
Lemma on_disconnect_registry_ok nsp doc st :
  YS.registry_ok st → YS.registry_ok (YS.on_disconnect nsp doc st).2.
Proof.
  intros [Hreg Hlt]. unfold YS.on_disconnect.
  destruct (decide (size (YS.fetchSockets nsp st) = 0)) as [Hz|Hz]; [|by split].
  ys_simpl. destruct (YS.persistence st) as [p|]; [|by split].
  destruct (YS.writeState _ doc p) as [[[]|err] p']; [|by split].
  split; ys_simpl.
  - intros n r [Hne Hn]%lookup_delete_Some.
    destruct (Hreg n r Hn) as (d & Hd & Hna & Hde).
    rewrite lookup_alter. case_decide; [|eauto]. subst r.
    rewrite (lookup_total_correct _ _ _ Hd) in Hne. congruence.
  - intros r. rewrite lookup_alter. case_decide; [subst|]; [|by apply Hlt].
    intros [d Hd]%fmap_is_Some. by apply Hlt.
Qed.

Lemma handle_registry_ok ev st : YS.registry_ok st → YS.registry_ok (YS.handle ev st).
Proof.
  intros Hok. destruct ev as [socket nsp h|socket nsp]; simpl.
  - unfold YS.accept. destruct (YS.middleware h st) as [|msg|].
    + rewrite on_connection_unfold.
      destruct (YS.initDocument _ nsp _ (YS.join socket nsp st)) as [o st1] eqn:Hi.
      apply initDocument_registry_ok in Hi as [[? ?] _];
        [|destruct Hok; by split].
      destruct o; by split.
    + destruct Hok. by split.
    + done.
  - unfold YS.close.
    destruct (YS.listeners _ !! socket) as [doc|]; [|destruct Hok; by split].
    apply on_disconnect_registry_ok. destruct Hok. by split.
Qed.

Lemma run_registry_ok evs : ∀ st, YS.registry_ok st → YS.registry_ok (YS.run evs st).
Proof.
  induction evs as [|ev evs IH]; intros st Hok; [done|].
  apply IH. by apply handle_registry_ok.
Qed.

Lemma new_registry_ok cfg : YS.registry_ok (YS.new (P:=P) cfg).
Proof.
  split; simpl.
  - intros n r. by rewrite lookup_empty.
  - intros r [d Hd]. by rewrite lookup_empty in Hd.
Qed.

(** X8. With handlers run one at a time, whatever connections and closes
    the server has gone through, and whatever the provider did: every
    registered document exists, carries the name it is registered under and
    is not destroyed; and a connection that is let in and whose handler is
    fulfilled gets listeners on the document registered for the room of its
    namespace, which is not a destroyed one. *)
Theorem registry_never_holds_a_destroyed_document cfg evs :
  let st := YS.run evs (YS.new (P:=P) cfg) in
  YS.registry_ok st ∧
  (∀ socket nsp h st',
     YS.middleware h st = YS.NextOk →
     YS.accept socket nsp h st = (Fulfilled (), st') →
     ∃ r d, YS.listeners st' !! socket = Some r ∧
       YS._documents st' !! replace_first "/yjs|" nsp = Some r ∧
       YS.heap st' !! r = Some d ∧
       YS.name d = replace_first "/yjs|" nsp ∧ YS.destroyed d = false).
Proof.
  intros st.
  assert (YS.registry_ok st) as Hok by apply run_registry_ok, new_registry_ok.
  split; [done|]. intros socket nsp h st' Hm. unfold YS.accept. rewrite Hm.
  rewrite on_connection_unfold.
  destruct (YS.initDocument _ nsp _ (YS.join socket nsp st)) as [o st1] eqn:Hi.
  apply initDocument_registry_ok in Hi as ([Hreg1 _] & Hret & _);
    [|destruct Hok; by split].
  destruct o as [r|e]; [|done]. intros [= <-]. ys_simpl.
  specialize (Hret r eq_refl). destruct (Hreg1 _ r Hret) as (d & Hd & Hna & Hde).
  exists r, d. by rewrite lookup_insert_eq.
Qed.

End ServerInvariants.

(** * Connections of one room share one document, handlers run one at a time *)
Section Sharing.
Context `{Y.Engine} {P : Type} `{!PersistenceProvider P}.
Implicit Types (st : YS.t (P:=P)).

Lemma fetchSockets_sockets nsp st st' :
  YS.sockets st' = YS.sockets st → YS.fetchSockets nsp st' = YS.fetchSockets nsp st.
Proof. unfold YS.fetchSockets. by intros ->. Qed.

Lemma fetchSockets_insert nsp nsp' (X : gset YS.socket_id) st :
  YS.fetchSockets nsp' (YS.set_sockets (insert nsp X) st) =
  if decide (nsp = nsp') then X else YS.fetchSockets nsp' st.
Proof.
  unfold YS.fetchSockets. ys_simpl. rewrite lookup_insert. by case_decide.
Qed.

Lemma unknown_nowhere socket st nsp :
  YS.unknown socket st → socket ∉ YS.fetchSockets nsp st.
Proof.
  intros [_ Hall]. unfold YS.fetchSockets.
  destruct (YS.sockets st !! nsp) as [X|] eqn:HX; simpl.
  - by apply (Hall nsp X).
  - apply not_elem_of_empty.
Qed.

Lemma is_yjs_room nsp nsp' :
  YS.is_yjs nsp → YS.is_yjs nsp' →
  replace_first "/yjs|" nsp = replace_first "/yjs|" nsp' → nsp = nsp'.
Proof.
  intros [b ->]%prefix_inv [b' ->]%prefix_inv.
  rewrite !replace_first_append. by intros ->.
Qed.

Lemma accept_settled socket nsp h st :
  YS.unknown socket st → YS.is_yjs nsp →
  YS.settled st → YS.settled (YS.accept socket nsp h st).2.
Proof.
  intros Hunk Hyjs (Hok & Hsh & Hns).
  split; [apply (handle_registry_ok (YS.Accept socket nsp h) st Hok)|].
  unfold YS.accept. destruct (YS.middleware h st) as [|msg|]; [|by split..].
  rewrite on_connection_unfold.
  assert (∀ nsp' s', s' ∈ YS.fetchSockets nsp' (YS.join socket nsp st) →
            (s' = socket ∧ nsp' = nsp) ∨ s' ∈ YS.fetchSockets nsp' st) as HJ.
  { intros nsp' s'. unfold YS.join. rewrite fetchSockets_insert.
    case_decide; [subst|by right].
    intros [->%elem_of_singleton|?]%elem_of_union; [by left|by right]. }
  assert (YS.registry_ok (YS.join socket nsp st)) as HokJ
    by (destruct Hok; by split).
  assert (YS.listeners (YS.join socket nsp st) = YS.listeners st) as JL by done.
  assert (YS._documents (YS.join socket nsp st) = YS._documents st) as JD by done.
  set (stJ := YS.join socket nsp st) in *. clearbody stJ.
  destruct (YS.initDocument _ nsp _ stJ) as [o st1] eqn:Hi.
  pose proof (initDocument_frame _ _ _ _ _ _ Hi) as (Hs & Hl & _ & _ & Hfr & _).
  assert (∀ nsp' s', s' ∈ YS.fetchSockets nsp' st1 →
            (s' = socket ∧ nsp' = nsp) ∨ s' ∈ YS.fetchSockets nsp' st) as HJ1.
  { intros nsp' s'. rewrite (fetchSockets_sockets _ stJ st1) by done. apply HJ. }
  (* the registered documents that connected sockets hold stay registered *)
  assert (∀ s' nsp' r, s' ∈ YS.fetchSockets nsp' st →
            YS.listeners st !! s' = Some r →
            YS._documents st1 !! replace_first "/yjs|" nsp' = Some r) as Hkeep.
  { intros s' nsp' r Hin Hls. specialize (Hsh s' nsp' r Hin Hls).
    destruct (decide (replace_first "/yjs|" nsp' = replace_first "/yjs|" nsp))
      as [Heq|Hne]; [|by rewrite Hfr, JD].
    rewrite Heq in *. rewrite <- JD in Hsh.
    rewrite (initDocument_cached _ nsp _ stJ r Hsh) in Hi.
    injection Hi as <- <-. by ys_simpl. }
  apply initDocument_registry_ok in Hi as (_ & Hret & Hrej); [|done].
  destruct o as [doc|e]; cbn [snd].
  - specialize (Hret doc eq_refl).
    assert (YS.listeners (YS.connected socket doc st1) =
            <[socket := doc]> (YS.listeners st)) as HL by (ys_simpl; by rewrite Hl, JL).
    split.
    + intros s' nsp' r Hin.
      rewrite (fetchSockets_sockets _ st1) in Hin by done.
      rewrite HL, lookup_insert. case_decide.
      * subst s'. intros [= <-]. apply HJ1 in Hin as [[_ ->]|Hin]; [done|].
        by destruct (unknown_nowhere _ _ _ Hunk Hin).
      * intros Hls. apply HJ1 in Hin as [[? _]|Hin]; [done|].
        by apply (Hkeep s' nsp').
    + intros nsp' s' Hin. rewrite (fetchSockets_sockets _ st1) in Hin by done.
      apply HJ1 in Hin as [[_ ->]|Hin]; [done|]. by eapply Hns.
  - split.
    + intros s' nsp' r Hin. rewrite Hl, JL. intros Hls.
      apply HJ1 in Hin as [[-> _]|Hin].
      * destruct Hunk as [Hnone _]. congruence.
      * by apply (Hkeep s' nsp').
    + intros nsp' s' Hin. apply HJ1 in Hin as [[_ ->]|Hin]; [done|]. by eapply Hns.
Qed.

Lemma close_settled socket nsp st :
  socket ∈ YS.fetchSockets nsp st →
  YS.settled st → YS.settled (YS.close socket nsp st).2.
Proof.
  intros Hin (Hok & Hsh & Hns).
  split; [apply (handle_registry_ok (YS.Close socket nsp) st Hok)|].
  unfold YS.close.
  assert (∀ nsp' s',
            s' ∈ YS.fetchSockets nsp'
                   (YS.set_sockets
                      (insert nsp (YS.fetchSockets nsp st ∖ {[socket]})) st) →
            s' ∈ YS.fetchSockets nsp' st ∧ (nsp' = nsp → s' ≠ socket)) as H1.
  { intros nsp' s'. rewrite fetchSockets_insert.
    case_decide; [subst|done].
    intros [? ?%not_elem_of_singleton]%elem_of_difference. done. }
  set (st1 := YS.set_sockets _ st) in *.
  assert (YS.listeners st1 = YS.listeners st) as L1 by done.
  assert (YS._documents st1 = YS._documents st) as D1 by done.
  assert (YS.heap st1 = YS.heap st) as E1 by done.
  assert (YS.registry_ok st1) as Hok1 by (destruct Hok; by split).
  clearbody st1.
  destruct (YS.listeners st1 !! socket) as [doc|] eqn:Hdoc.
  2:{ cbn [snd]. split.
      - intros s' nsp' r [Hin' _]%H1. rewrite L1, D1. by apply Hsh.
      - intros nsp' s' [Hin' _]%H1. by eapply Hns. }
  assert (∀ nsp' s',
            s' ∈ YS.fetchSockets nsp' (YS.set_listeners (delete socket) st1) →
            s' ∈ YS.fetchSockets nsp' st ∧ (nsp' = nsp → s' ≠ socket)) as H2.
  { intros nsp' s'. rewrite (fetchSockets_sockets _ st1) by done. apply H1. }
  assert (∀ s' r,
            YS.listeners (YS.set_listeners (delete socket) st1) !! s' = Some r →
            s' ≠ socket ∧ YS.listeners st !! s' = Some r) as HL.
  { intros s' r. ys_simpl. rewrite L1. by intros [? ?]%lookup_delete_Some. }
  set (st2 := YS.set_listeners (delete socket) st1) in *.
  assert (YS._documents st2 = YS._documents st) as D2 by done.
  assert (YS.heap st2 = YS.heap st) as E2 by done.
  assert (YS.registry_ok st2) as Hok2 by (destruct Hok1; by split).
  clearbody st2.
  assert (YS.shared st2) as Hsh2.
  { intros s' nsp' r [Hin' _]%H2 [_ Hls]%HL. rewrite D2. by apply (Hsh s' nsp'). }
  assert (∀ nsp' s', s' ∈ YS.fetchSockets nsp' st2 → YS.is_yjs nsp') as Hns2.
  { intros nsp' s' [Hin' _]%H2. by eapply Hns. }
  assert (YS.name (YS.heap st2 !!! doc) = replace_first "/yjs|" nsp) as Hname.
  { assert (YS.listeners st !! socket = Some doc) as Hls by (by rewrite <- L1).
    specialize (Hsh socket nsp doc Hin Hls).
    destruct Hok as [Hreg _]. destruct (Hreg _ _ Hsh) as (d & Hd & Hna & _).
    rewrite E2. by rewrite (lookup_total_correct _ _ _ Hd). }
  unfold YS.on_disconnect.
  destruct (decide (size (YS.fetchSockets nsp st2) = 0)) as [Hz|Hz]; [|by split].
  apply size_empty_inv, leibniz_equiv in Hz.
  cbn [YS.persistence YS.emit YS.heap].
  destruct (YS.persistence st2) as [p|]; [|by split].
  destruct (YS.writeState _ doc p) as [[[]|err] p']; [|by split].
  cbn [snd]. split.
  - intros s' nsp' r Hin' Hls.
    rewrite (fetchSockets_sockets _ st2) in Hin' by done.
    assert (YS.listeners st2 !! s' = Some r) as Hls' by done.
    ys_simpl. apply lookup_delete_Some. split.
    + rewrite Hname. intros Heq.
      assert (nsp = nsp') as <-.
      { apply is_yjs_room; [by eapply Hns|by eapply Hns2|done]. }
      rewrite Hz in Hin'. by apply not_elem_of_empty in Hin'.
    + by apply (Hsh2 s' nsp').
  - intros nsp' s' Hin'. rewrite (fetchSockets_sockets _ st2) in Hin' by done.
    by eapply Hns2.
Qed.

Lemma run_settled evs : ∀ st,
  YS.well_timed evs st = true → YS.settled st → YS.settled (YS.run evs st).
Proof.
  induction evs as [|ev evs IH]; intros st Hwt Hst; [done|].
  simpl in Hwt. apply andb_prop in Hwt as [Hev Hwt].
  apply (IH _ Hwt). destruct ev as [socket nsp h|socket nsp]; simpl.
  - apply bool_decide_eq_true in Hev as (Hnone & Hall & Hyjs).
    by apply accept_settled.
  - apply bool_decide_eq_true in Hev. by apply close_settled.
Qed.

(** X9. With handlers run one at a time, on a transport that gives every
    connection a new socket on a namespace of the dynamic namespace and
    closes a socket on the namespace it is in: the listeners of every
    connected socket close over the document registered for its room, so
    two connections of the same namespace hold the same document, whatever
    the provider did. *)
Theorem connections_of_a_room_share_one_document cfg evs :
  YS.well_timed evs (YS.new (P:=P) cfg) = true →
  let st := YS.run evs (YS.new (P:=P) cfg) in
  YS.shared st ∧
  (∀ nsp s1 s2 r1 r2,
     s1 ∈ YS.fetchSockets nsp st → s2 ∈ YS.fetchSockets nsp st →
     YS.listeners st !! s1 = Some r1 → YS.listeners st !! s2 = Some r2 →
     r1 = r2).
Proof.
  intros Hwt st.
  assert (YS.settled st) as (_ & Hsh & _).
  { apply run_settled; [done|]. split; [apply new_registry_ok|]. split.
    - intros s nsp r. unfold YS.fetchSockets. simpl. rewrite lookup_empty.
      by intros ?%not_elem_of_empty.
    - intros nsp s. unfold YS.fetchSockets. simpl. rewrite lookup_empty.
      by intros ?%not_elem_of_empty. }
  split; [done|]. intros nsp s1 s2 r1 r2 H1 H2 Hl1 Hl2.
  pose proof (Hsh s1 nsp r1 H1 Hl1). pose proof (Hsh s2 nsp r2 H2 Hl2).
  congruence.
Qed.

End Sharing.

(** * The server over the generic adaptor *)
Section ServerOverAdaptor.
Context `{Y.Engine} {S : Type} `{!GenericPersistence S}.
Implicit Types (st : YS.t (P:=GPA.t (S:=S))) (a : GPA.t (S:=S)).

Lemma storeUpdate_unrejected n u a :
  GPA.unrejected (GPA.tr a) → GPA.unrejected (GPA.tr (GPA.storeUpdate n u a).2).
Proof.
  intros Hun. rewrite storeUpdate_unfold by done. simpl.
  pose proof (quiesce_unrejected a Hun) as Hq.
  destruct (GPA.transact_body _ _) as [r w2]. simpl.
  apply Forall_app. split; [done|]. by constructor.
Qed.

(** Over the adaptor, [bindState] is always fulfilled. *)
Lemma bindState_adaptor nm doc a st :
  GPA.unrejected (GPA.tr a) →
  ∃ d a' st', YS.bindState nm doc a st = (Fulfilled (), a', st') ∧
    (GPA.getYDoc nm None a).1 = Fulfilled d ∧
    a' = (GPA.storeUpdate nm (Y.encodeStateAsUpdate (YS.ydoc (YS.heap st !!! doc)))
            (GPA.getYDoc nm None a).2).2 ∧
    GPA.unrejected (GPA.tr a') ∧
    YS.heap st' =
      alter (λ x, YS.Doc (YS.name x) (YS.namespace x) (YS.gc x)
                    (Y.applyUpdate (YS.ydoc x) (Y.encodeStateAsUpdate d))
                    (Datatypes.S (YS.stores x)) (YS.destroyed x)) doc (YS.heap st).
Proof.
  intros Hun. unfold YS.bindState. cbn [provider_getYDoc provider_storeUpdate adaptor_provider].
  pose proof (getYDoc_unrejected nm None a Hun) as Hun1.
  pose proof (getYDoc_unfold nm None a Hun) as Hg.
  destruct (GPA.getYDoc nm None a) as [o1 a1].
  assert (∃ d, o1 = Fulfilled d) as [d ->].
  { cbv zeta in Hg. destruct (GPA.transact_body _ _) in Hg.
    injection Hg as -> _. eauto. }
  cbn [fst snd] in *.
  set (u := Y.encodeStateAsUpdate _).
  pose proof (storeUpdate_unrejected nm u a1 Hun1) as Hun2.
  pose proof (storeUpdate_unfold nm u a1 Hun1) as Hs.
  destruct (GPA.storeUpdate nm u a1) as [o2 a2].
  assert (o2 = Fulfilled ()) as ->.
  { cbv zeta in Hs. destruct (GPA.transact_body _ _) in Hs.
    by injection Hs as -> _. }
  by eexists d, a2, _.
Qed.

(** Over the adaptor, [initDocument] is always fulfilled. *)
Lemma initDocument_adaptor nm nsp g st a :
  YS.persistence st = Some a → GPA.unrejected (GPA.tr a) →
  ∃ doc st' a', YS.initDocument nm nsp g st = (Fulfilled doc, st') ∧
    YS.persistence st' = Some a' ∧ GPA.unrejected (GPA.tr a').
Proof.
  intros Hp Hun. destruct (YS._documents st !! nm) as [r0|] eqn:Hr.
  - rewrite (initDocument_cached nm nsp g st r0 Hr). by eexists _, _, a.
  - rewrite initDocument_fresh by done. cbv zeta. rewrite Hp.
    destruct (bindState_adaptor nm (YS.next_ref st) a
                (YS.set_heap (alter (YS.set_gc (default true g)) (YS.next_ref st))
                   (YS.new_Document nm nsp st).2) Hun)
      as (d & a' & st' & -> & _ & _ & Hun' & _).
    by eexists _, _, a'.
Qed.

(** X10. Over the adaptor a connection that the middleware lets in is
    always established, whatever the store does (the chain having no
    rejected promise): the handler is fulfilled, the socket is in its
    namespace, its listeners close over the document registered for the
    room, and a connection event for the socket and that document is the
    last one emitted. *)
Theorem connection_is_established_whatever_the_store_does socket nsp h st a :
  YS.middleware h st = YS.NextOk →
  YS.persistence st = Some a →
  GPA.unrejected (GPA.tr a) →
  ∃ doc st' a', YS.accept socket nsp h st = (Fulfilled (), st') ∧
    socket ∈ YS.fetchSockets nsp st' ∧
    YS.listeners st' !! socket = Some doc ∧
    YS._documents st' !! replace_first "/yjs|" nsp = Some doc ∧
    last (YS.emitted st') = Some (YS.Connection socket doc) ∧
    YS.persistence st' = Some a' ∧ GPA.unrejected (GPA.tr a').
Proof.
  intros Hm Hp Hun. unfold YS.accept. rewrite Hm. rewrite on_connection_unfold.
  destruct (initDocument_adaptor (replace_first "/yjs|" nsp) nsp
              (YS.configuration (YS.join socket nsp st) ≫= YS.gcEnabled)
              (YS.join socket nsp st) a Hp Hun)
    as (doc & st1 & a' & Hi & Hp' & Hun').
  rewrite Hi.
  pose proof (initDocument_frame _ _ _ _ _ _ Hi) as (Hs & _).
  assert (YS._documents st1 !! replace_first "/yjs|" nsp = Some doc) as Hreg.
  { destruct (YS._documents (YS.join socket nsp st) !! replace_first "/yjs|" nsp)
      as [r0|] eqn:Hr.
    - rewrite (initDocument_cached _ nsp _ _ r0 Hr) in Hi. by injection Hi as <- <-.
    - rewrite initDocument_fresh in Hi by done. cbv zeta in Hi.
      assert (YS.persistence (YS.join socket nsp st) = Some a) as Hpj by done.
      rewrite Hpj in Hi.
      destruct (YS.bindState _ _ a _) as [[[[]|e] p'] st3]; [|done].
      injection Hi as <- <-. ys_simpl. by rewrite lookup_insert_eq. }
  exists doc, (YS.connected socket doc st1), a'. split; [done|].
  unfold YS.connected. ys_simpl. split.
  { rewrite (fetchSockets_sockets _ (YS.join socket nsp st)) by done.
    unfold YS.join. rewrite fetchSockets_insert, decide_True by done.
    apply elem_of_union. left. by apply elem_of_singleton. }
  rewrite lookup_insert_eq, last_snoc. by repeat split.
Qed.

(** X11. Opening a room that is not registered, over the adaptor whose
    store answers the read with a log no longer than the threshold: the
    store is called exactly twice, first to read the room's log, then to
    append the state of the still empty new document; the registered
    document then holds the replayed log merged into the empty document, has
    one store listener, and document-loaded is emitted once. *)
Theorem new_room_is_loaded_from_the_store nm nsp g st a us s1 :
  YS._documents st !! nm = None →
  YS.persistence st = Some a →
  GPA.unrejected (GPA.tr a) →
  let w := GPA.env (GPA.quiesce a) in
  db_getUpdates nm (GPA.db w) = (Fulfilled us, s1) →
  (Z.of_nat (length us) ≤ GPA.trimSize a)%Z →
  ∃ st' a', YS.initDocument nm nsp g st = (Fulfilled (YS.next_ref st), st') ∧
    YS.persistence st' = Some a' ∧
    GPA.calls (GPA.env a') =
      GPA.calls w ++ [GetUpdates nm; StoreUpdate nm (Y.encodeStateAsUpdate Y.newDoc)] ∧
    GPA.db (GPA.env a') = (db_storeUpdate nm (Y.encodeStateAsUpdate Y.newDoc) s1).2 ∧
    YS._documents st' = <[nm := YS.next_ref st]> (YS._documents st) ∧
    YS.heap st' =
      <[YS.next_ref st :=
          YS.Doc nm nsp (default true g)
            (Y.applyUpdate Y.newDoc (Y.encodeStateAsUpdate (GPA.replay us)))
            1 false]> (YS.heap st) ∧
    YS.emitted st' = YS.emitted st ++ [YS.DocumentLoaded (YS.next_ref st)].
Proof.
  intros Hn Hp Hun w Hg Hlen. rewrite initDocument_fresh by done. cbv zeta.
  rewrite Hp.
  destruct (fresh_state nm nsp g st) as (F1 & F2 & F3 & F4 & F5 & F6 & F7 & F8 & F9).
  set (st2 := YS.set_heap _ (YS.new_Document nm nsp st).2) in *. clearbody st2.
  unfold YS.bindState.
  cbn [provider_getYDoc provider_storeUpdate adaptor_provider].
  rewrite (getYDoc_unfold nm None a Hun). cbv zeta. cbn [default].
  fold w. rewrite (getYDoc_tx_small nm (GPA.trimSize a) w us s1 Hg Hlen).
  cbn [GPA.loaded_doc].
  set (a1 := {| GPA.env := _; GPA.tr := _; GPA.trimSize := _ |}).
  assert (Forall (λ s, GPA.is_done s = true) (GPA.tr a1)) as Hd1.
  { apply Forall_app. split; [apply quiesce_all_done|]. by constructor. }
  assert (GPA.unrejected (GPA.tr a1)) as Hun1.
  { apply Forall_app. split; [by apply quiesce_unrejected|]. by constructor. }
  rewrite F4, lookup_total_insert_eq. cbn [YS.ydoc].
  rewrite (storeUpdate_unfold nm _ a1 Hun1). cbv zeta.
  rewrite (quiesce_settled a1 Hd1), storeUpdate_tx_body.
  cbn [GPA.env GPA.db GPA.calls GPA.console a1].
  destruct (db_storeUpdate nm (Y.encodeStateAsUpdate Y.newDoc) s1) as [[[]|e] s2];
    (eexists _, _; split; [reflexivity|]); ys_simpl;
    rewrite F1, F4, F6, <- app_assoc; repeat split; try done;
    apply map_eq; intros i; rewrite lookup_alter, !lookup_insert;
    by repeat case_decide.
Qed.

(** X13. Opening a room that is not registered while the store rejects the
    read of its log: the connection side sees no error. The error is
    printed, the state of the empty new document is still appended to the
    store, and the room is registered and announced with a document that
    holds nothing of what was persisted. *)
Theorem new_room_is_empty_when_the_store_cannot_be_read nm nsp g st a e s1 :
  YS._documents st !! nm = None →
  YS.persistence st = Some a →
  GPA.unrejected (GPA.tr a) →
  let w := GPA.env (GPA.quiesce a) in
  db_getUpdates nm (GPA.db w) = (Rejected e, s1) →
  ∃ st' a', YS.initDocument nm nsp g st = (Fulfilled (YS.next_ref st), st') ∧
    YS.persistence st' = Some a' ∧
    GPA.console w ++ [e] `prefix_of` GPA.console (GPA.env a') ∧
    GPA.calls (GPA.env a') =
      GPA.calls w ++ [GetUpdates nm; StoreUpdate nm (Y.encodeStateAsUpdate Y.newDoc)] ∧
    YS._documents st' = <[nm := YS.next_ref st]> (YS._documents st) ∧
    YS.heap st' =
      <[YS.next_ref st :=
          YS.Doc nm nsp (default true g)
            (Y.applyUpdate Y.newDoc (Y.encodeStateAsUpdate Y.newDoc))
            1 false]> (YS.heap st) ∧
    YS.emitted st' = YS.emitted st ++ [YS.DocumentLoaded (YS.next_ref st)].
Proof.
  intros Hn Hp Hun w Hg. rewrite initDocument_fresh by done. cbv zeta.
  rewrite Hp.
  destruct (fresh_state nm nsp g st) as (F1 & F2 & F3 & F4 & F5 & F6 & F7 & F8 & F9).
  set (st2 := YS.set_heap _ (YS.new_Document nm nsp st).2) in *. clearbody st2.
  unfold YS.bindState.
  cbn [provider_getYDoc provider_storeUpdate adaptor_provider].
  rewrite (getYDoc_unfold nm None a Hun). cbv zeta. cbn [default].
  fold w. rewrite (getYDoc_tx_read_fails nm (GPA.trimSize a) w e s1 Hg).
  cbn [GPA.loaded_doc].
  set (a1 := {| GPA.env := _; GPA.tr := _; GPA.trimSize := _ |}).
  assert (Forall (λ s, GPA.is_done s = true) (GPA.tr a1)) as Hd1.
  { apply Forall_app. split; [apply quiesce_all_done|]. by constructor. }
  assert (GPA.unrejected (GPA.tr a1)) as Hun1.
  { apply Forall_app. split; [by apply quiesce_unrejected|]. by constructor. }
  rewrite F4, lookup_total_insert_eq. cbn [YS.ydoc].
  rewrite (storeUpdate_unfold nm _ a1 Hun1). cbv zeta.
  rewrite (quiesce_settled a1 Hd1), storeUpdate_tx_body.
  cbn [GPA.env GPA.db GPA.calls GPA.console a1].
  destruct (db_storeUpdate nm (Y.encodeStateAsUpdate Y.newDoc) s1) as [[[]|e2] s2];
    (eexists _, _; split; [reflexivity|]); ys_simpl;
    rewrite F1, F4, F6, <- app_assoc; repeat split; try done;
    try (by apply prefix_app_r);
    apply map_eq; intros i; rewrite lookup_alter, !lookup_insert;
    by repeat case_decide.
Qed.

End ServerOverAdaptor.

(** * A socket that leaves while its document is loading *)
Section Leaving.
Context `{Y.Engine} {P : Type} `{!PersistenceProvider P}.
Implicit Types (st : YS.t (P:=P)).

(** X12. The first socket of a room closes while its ['connection'] handler
    waits for [bindState]: no ['disconnect'] listener is on the socket yet,
    so nothing runs at the close. When [bindState] is fulfilled the handler
    goes on: the document is registered and announced although its
    namespace has no socket left, it is not destroyed, no
    all-document-connections-closed event is emitted for it, and the
    provider is left as [bindState] left it: nothing is flushed. *)
Theorem socket_closed_while_loading_leaves_the_document socket nsp st p :
  YS.persistence st = Some p →
  YS._documents st !! replace_first "/yjs|" nsp = None →
  YS.listeners st !! socket = None →
  YS.fetchSockets nsp st = ∅ →
  let room := replace_first "/yjs|" nsp in
  let doc := YS.next_ref st in
  ∃ st1, YS.connection_enter nsp (YS.join socket nsp st) = (YS.Binding doc, st1) ∧
    ∃ st2, YS.close socket nsp st1 = (Fulfilled (), st2) ∧
    YS.emitted st2 = YS.emitted st ∧
    ∀ st3, YS.connection_resume socket nsp doc st2 = (Fulfilled (), st3) →
      YS.fetchSockets nsp st3 = ∅ ∧
      YS._documents st3 !! room = Some doc ∧
      YS.destroyed <$> YS.heap st3 !! doc = Some false ∧
      YS.emitted st3 =
        YS.emitted st ++ [YS.DocumentLoaded doc; YS.Connection socket doc] ∧
      ∃ p' stb, YS.bindState room doc p st2 = (Fulfilled (), p', stb) ∧
        YS.persistence st3 = Some p'.
Proof.
  intros Hp Hn Hl Hf room doc. unfold YS.connection_enter.
  rewrite (initDocument_enter_fresh room nsp _ (YS.join socket nsp st) p) by done.
  eexists. split; [reflexivity|].
  destruct (fresh_state room nsp (YS.configuration (YS.join socket nsp st) ≫= YS.gcEnabled)
              (YS.join socket nsp st))
    as (F1 & F2 & F3 & F4 & F5 & F6 & F7 & F8 & F9).
  set (st1 := YS.set_heap _ (YS.new_Document room nsp (YS.join socket nsp st)).2) in *.
  assert (YS.next_ref (YS.join socket nsp st) = doc) as Hnr by done.
  rewrite Hnr in F4.
  assert (YS.emitted (YS.join socket nsp st) = YS.emitted st) as Hej by done.
  assert (YS.listeners (YS.join socket nsp st) = YS.listeners st) as Hlj by done.
  assert (YS._documents (YS.join socket nsp st) = YS._documents st) as Hdj by done.
  assert (YS.persistence (YS.join socket nsp st) = Some p) as Hpj by done.
  assert (YS.fetchSockets nsp st1 = {[socket]}) as Hf1.
  { rewrite (fetchSockets_sockets nsp (YS.join socket nsp st)) by done.
    unfold YS.join. rewrite fetchSockets_insert, decide_True, Hf by done.
    set_solver. }
  clearbody st1.
  set (st2 := YS.set_sockets (insert nsp (YS.fetchSockets nsp st1 ∖ {[socket]})) st1).
  assert (YS.close socket nsp st1 = (Fulfilled (), st2)) as Hc.
  { unfold YS.close. cbv zeta. fold st2.
    assert (YS.listeners st2 = YS.listeners st1) as -> by done.
    by rewrite F8, Hlj, Hl. }
  exists st2. split; [done|]. split; [by rewrite <- Hej, <- F6|].
  assert (YS.fetchSockets nsp st2 = ∅) as Hf2.
  { unfold st2. rewrite fetchSockets_insert, decide_True, Hf1 by done. set_solver. }
  assert (YS.persistence st2 = Some p) as Hp2 by (by rewrite <- Hpj, <- F2).
  assert (YS.emitted st2 = YS.emitted st) as He2 by (by rewrite <- Hej, <- F6).
  assert (YS.heap st2 = YS.heap st1) as Hh2 by done.
  clearbody st2.
  intros st3. unfold YS.connection_resume, YS.initDocument_bind. rewrite Hp2.
  subst room.
  destruct (YS.bindState _ doc p st2) as [[[[]|e] p'] stb] eqn:Hb; [|by intros [=]].
  pose proof Hb as (Hd & He & _ & Hs & _ & _ & _ & _ & _ & Hde)%bindState_frame.
  intros [= <-]. unfold YS.connected. ys_simpl.
  rewrite (fetchSockets_sockets nsp st2) by done.
  rewrite lookup_insert_eq, Hde, Hh2, F4, lookup_insert_eq, He, He2, <- app_assoc.
  repeat split; try done. by eexists _, _.
Qed.

End Leaving.

(** * A flush that fails at the last close *)
Section FailedFlush.
Context `{Y.Engine} {P : Type} `{!PersistenceProvider P}.
Implicit Types (st : YS.t (P:=P)).

(** X14. The last socket of a room closes and the provider rejects the
    flush: the ['disconnect'] handler rejects after the
    all-document-connections-closed event, and the document is neither
    destroyed nor taken out of the registry. The next connection to the room
    that the middleware lets in is then served that very document, without
    any call of the provider and without a document-loaded event. *)
Theorem failed_flush_keeps_the_document_for_the_next_connection
    s nsp doc d st p e p' :
  YS.sockets st !! nsp = Some {[s]} →
  YS.listeners st !! s = Some doc →
  YS.persistence st = Some p →
  YS._documents st !! replace_first "/yjs|" nsp = Some doc →
  YS.heap st !! doc = Some d →
  provider_flushDocument (YS.name d) p = (Rejected e, p') →
  ∃ st1, YS.close s nsp st = (Rejected e, st1) ∧
    YS._documents st1 = YS._documents st ∧ YS.heap st1 = YS.heap st ∧
    YS.emitted st1 = YS.emitted st ++ [YS.AllDocumentConnectionsClosed doc] ∧
    YS.fetchSockets nsp st1 = ∅ ∧
    ∀ s2 h, YS.middleware h st1 = YS.NextOk →
      ∃ st2, YS.accept s2 nsp h st1 = (Fulfilled (), st2) ∧
        YS.listeners st2 !! s2 = Some doc ∧
        YS.persistence st2 = Some p' ∧
        YS._documents st2 = YS._documents st ∧
        YS.ydoc <$> YS.heap st2 !! doc = Some (YS.ydoc d) ∧
        YS.emitted st2 = YS.emitted st1 ++ [YS.Connection s2 doc].
Proof.
  intros HX Hl Hp Hreg Hd Hf.
  assert (YS.name (YS.heap st !!! doc) = YS.name d) as Hnm.
  { by rewrite (lookup_total_correct _ _ _ Hd). }
  rewrite <- Hnm in Hf.
  rewrite (close_last_with_provider s nsp doc st p _ p' HX Hl Hp Hf). cbv zeta.
  eexists. split; [reflexivity|]. ys_simpl. repeat (split; [done|]).
  split. { unfold YS.fetchSockets. ys_simpl. by rewrite lookup_insert_eq. }
  intros s2 h Hm. unfold YS.accept. rewrite Hm, on_connection_unfold.
  rewrite (initDocument_cached _ nsp _ _ doc) by done.
  eexists. split; [reflexivity|]. unfold YS.connected, YS.join. ys_simpl.
  rewrite lookup_insert_eq, lookup_alter, decide_True, Hd by done.
  by repeat split.
Qed.

End FailedFlush.

(** * Runs of the further properties on the sample store *)
Section MoreRuns.
Import Sample.

(** A store of an update on a new adaptor. *)
Lemma storeUpdate_makes_one_call_and_never_rejects_witness :
  ∃ a', GPA.storeUpdate "doc" 4%N (GPA.new (healthy [("doc", [1; 2]%N)]) None)
          = (Fulfilled (), a') ∧
    GPA.calls (GPA.env a') = [StoreUpdate "doc" 4%N] ∧
    logs (GPA.db (GPA.env a')) !! "doc" = Some [1; 2; 4]%N.
Proof.
  destruct (storeUpdate_makes_one_call_and_never_rejects (H:=engine) []
              (GPA.new (healthy [("doc", [1; 2]%N)]) None) "doc" 4%N _
              eq_refl eq_refl)
    as (a' & Hr & Hc & _ & Hdb & _).
  exists a'. split; [exact Hr|]. split; [exact Hc|].
  rewrite Hdb. vm_compute. reflexivity.
Defined.

(** A log of three entries is loaded as what they merge to. *)
Lemma getYDoc_returns_the_replayed_log_witness :
  ∃ a', GPA.getYDoc "doc" None (GPA.new (healthy [("doc", [1; 2; 4]%N)]) None)
          = (Fulfilled 7%N, a') ∧
    GPA.console (GPA.env a') = [].
Proof.
  edestruct (getYDoc_returns_the_replayed_log (H:=engine) "doc" None
               (GPA.new (healthy [("doc", [1; 2; 4]%N)]) None) [1; 2; 4]%N)
    as (a' & Hr & Hc).
  { constructor. }
  { vm_compute. reflexivity. }
  { left. vm_compute. discriminate. }
  exists a'. split; [exact Hr|exact Hc].
Defined.

(** A log of two entries is well under the default threshold. *)
Lemma default_trimSize_is_500_witness :
  let r := GPA.getYDoc "doc" None (GPA.new (healthy [("doc", [1; 2]%N)]) None) in
  r.1 = Fulfilled 3%N ∧ GPA.calls (GPA.env r.2) = [GetUpdates "doc"].
Proof.
  edestruct (default_trimSize_is_500 (H:=engine) (healthy [("doc", [1; 2]%N)])
               "doc" [1; 2]%N) as [Hsmall _].
  { vm_compute. reflexivity. }
  apply Hsmall. cbn [length]. lia.
Defined.

(** The room of a namespace, bars in the room name included. *)
Lemma replace_first_strips_the_prefix_witness :
  replace_first "/yjs|" "/yjs|a|b" = "a|b" ∧
  ("/yjs|" +:+ "a|b" = "/yjs|" +:+ "a|b")%string.
Proof.
  destruct (replace_first_strips_the_prefix "/yjs|" "a|b") as [Hroom Hinj].
  split; [exact Hroom|]. exact (Hinj "a|b" eq_refl).
Defined.

(** A name in which the prefix does not occur. *)
Lemma replace_first_without_occurrence_witness :
  replace_first "/yjs|" "/ab" = "/ab".
Proof.
  apply replace_first_without_occurrence. intros a b Heq.
  do 3 (destruct a as [|? a]; [discriminate Heq|];
        cbn [String.append] in Heq; injection Heq as _ Heq).
  destruct a; discriminate Heq.
Defined.

(** A first [initDocument] on a server without a provider, collection off. *)
Lemma initDocument_registers_what_it_returns_witness :
  let r := YS.initDocument "r" "/yjs|r" (Some false) plain in
  r.1 = Fulfilled 0 ∧ YS._documents r.2 !! "r" = Some 0 ∧
  YS.gc <$> YS.heap r.2 !! 0 = Some false.
Proof.
  intros r. split; [reflexivity|].
  destruct (initDocument_registers_what_it_returns (H:=engine)
              "r" "/yjs|r" (Some false) plain 0 r.2) as (Hreg & _ & Hgc & _).
  - intros n x Hx. change (YS._documents plain) with (∅ : gmap string YS.ref) in Hx.
    by rewrite lookup_empty in Hx.
  - reflexivity.
  - split; [exact Hreg|exact Hgc].
Defined.

(** A provider that is down: the room is not registered. *)
Lemma initDocument_rejected_bind_registers_nothing_witness :
  let st := YS.new (P:=unit) (Some (YS.Config None (Some ()) None)) in
  ∃ st', YS.initDocument (PersistenceProvider0:=down) "r" "/yjs|r" None st
           = (Rejected "down", st') ∧
    YS._documents st' = ∅ ∧ YS.emitted st' = [].
Proof.
  intros st.
  destruct (initDocument_rejected_bind_registers_nothing (H:=engine)
              (PersistenceProvider0:=down) "r" "/yjs|r" None st () eq_refl eq_refl)
    as [Hget _].
  destruct (Hget "down" () eq_refl) as (st' & Hr & Hd & He & _).
  exists st'. split; [exact Hr|]. split; [exact Hd|exact He].
Defined.

(** After a room was opened and closed, a new connection to it is handed a
    live document. *)
Lemma registry_never_holds_a_destroyed_document_witness :
  let st := YS.run [YS.Accept 1 "/yjs|r" ∅; YS.Close 1 "/yjs|r"]
              (persistent (healthy [])) in
  YS.registry_ok st ∧
  ∃ r d, YS.listeners (YS.accept 2 "/yjs|r" ∅ st).2 !! 2 = Some r ∧
    YS.heap (YS.accept 2 "/yjs|r" ∅ st).2 !! r = Some d ∧
    YS.name d = "r" ∧ YS.destroyed d = false.
Proof.
  intros st.
  destruct (registry_never_holds_a_destroyed_document (H:=engine)
              (Some (YS.Config None (Some (GPA.new (healthy []) None)) None))
              [YS.Accept 1 "/yjs|r" ∅; YS.Close 1 "/yjs|r"]) as [Hok Hacc].
  split; [exact Hok|].
  destruct (Hacc 2 "/yjs|r" ∅ (YS.accept 2 "/yjs|r" ∅ st).2)
    as (r & d & Hl & _ & Hh & Hn & Hd).
  - reflexivity.
  - vm_compute. reflexivity.
  - exists r, d. repeat split; assumption.
Defined.

(** Two sockets in room "r", and one that came and went in room "q". *)
Lemma connections_of_a_room_share_one_document_witness :
  let st := YS.run [YS.Accept 1 "/yjs|r" ∅; YS.Accept 2 "/yjs|r" ∅;
                    YS.Accept 3 "/yjs|q" ∅; YS.Close 3 "/yjs|q"]
              (persistent (healthy [])) in
  ∃ r, YS.listeners st !! 1 = Some r ∧ YS.listeners st !! 2 = Some r.
Proof.
  intros st.
  destruct (YS.listeners st !! 1) as [r1|] eqn:H1; [|vm_compute in H1; discriminate].
  destruct (YS.listeners st !! 2) as [r2|] eqn:H2; [|vm_compute in H2; discriminate].
  exists r1. split; [reflexivity|]. f_equal. symmetry.
  destruct (connections_of_a_room_share_one_document (H:=engine)
              (Some (YS.Config None (Some (GPA.new (healthy []) None)) None))
              [YS.Accept 1 "/yjs|r" ∅; YS.Accept 2 "/yjs|r" ∅;
               YS.Accept 3 "/yjs|q" ∅; YS.Close 3 "/yjs|q"]) as [_ Hsame].
  - vm_compute. reflexivity.
  - apply (Hsame "/yjs|r" 1 2 r1 r2); [| |exact H1|exact H2];
      apply (bool_decide_unpack _); vm_compute; exact I.
Defined.

(** A store that can neither be read nor written: the connection is
    established all the same. *)
Lemma connection_is_established_whatever_the_store_does_witness :
  ∃ doc st', YS.accept 1 "/yjs|r" ∅ (persistent (Mem ∅ ["r"] ["r"] []))
               = (Fulfilled (), st') ∧
    YS.listeners st' !! 1 = Some doc ∧
    last (YS.emitted st') = Some (YS.Connection 1 doc).
Proof.
  edestruct (connection_is_established_whatever_the_store_does (H:=engine)
               1 "/yjs|r" ∅ (persistent (Mem ∅ ["r"] ["r"] [])))
    as (doc & st' & a' & Hr & _ & Hl & _ & He & _).
  { reflexivity. }
  { reflexivity. }
  { constructor. }
  exists doc, st'. split; [exact Hr|]. split; [exact Hl|exact He].
Defined.

(** Room "r" with a log of two entries. *)
Lemma new_room_is_loaded_from_the_store_witness :
  ∃ st' a', YS.initDocument "r" "/yjs|r" None
              (persistent (healthy [("r", [1; 2]%N)])) = (Fulfilled 0, st') ∧
    YS.persistence st' = Some a' ∧
    GPA.calls (GPA.env a') = [GetUpdates "r"; StoreUpdate "r" 0%N] ∧
    YS.heap st' !! 0 = Some (YS.Doc "r" "/yjs|r" true 3%N 1 false).
Proof.
  edestruct (new_room_is_loaded_from_the_store (H:=engine) "r" "/yjs|r" None
               (persistent (healthy [("r", [1; 2]%N)]))
               (GPA.new (healthy [("r", [1; 2]%N)]) None) [1; 2]%N)
    as (st' & a' & Hr & Hp & Hc & _ & _ & Hh & _).
  { reflexivity. }
  { reflexivity. }
  { constructor. }
  { vm_compute. reflexivity. }
  { vm_compute. discriminate. }
  exists st', a'. split; [exact Hr|]. split; [exact Hp|]. split; [exact Hc|].
  refine (eq_trans (f_equal (λ m, m !! 0) Hh) _). vm_compute. reflexivity.
Defined.

(** The only socket of room "r" leaves while the room is loading. *)
Lemma socket_closed_while_loading_leaves_the_document_witness :
  let st := persistent (healthy []) in
  let st1 := (YS.connection_enter "/yjs|r" (YS.join 1 "/yjs|r" st)).2 in
  let st2 := (YS.close 1 "/yjs|r" st1).2 in
  let r := YS.connection_resume 1 "/yjs|r" 0 st2 in
  r.1 = Fulfilled () ∧
  YS.fetchSockets "/yjs|r" r.2 = ∅ ∧
  YS._documents r.2 !! "r" = Some 0 ∧
  YS.emitted r.2 = [YS.DocumentLoaded 0; YS.Connection 1 0].
Proof.
  intros st st1 st2 r. split; [vm_compute; reflexivity|].
  destruct (socket_closed_while_loading_leaves_the_document (H:=engine)
              1 "/yjs|r" st (GPA.new (healthy []) None))
    as (st1' & Hen & st2' & Hcl & _ & Hres).
  - reflexivity.
  - reflexivity.
  - reflexivity.
  - reflexivity.
  - assert (st1' = st1) as -> by (unfold st1; by rewrite Hen).
    assert (st2' = st2) as -> by (unfold st2; by rewrite Hcl).
    destruct (Hres r.2) as (Hf & Hd & _ & He & _).
    + vm_compute. reflexivity.
    + split; [exact Hf|]. split; [exact Hd|exact He].
Defined.

(** Room "r" on a store that cannot be read. *)
Lemma new_room_is_empty_when_the_store_cannot_be_read_witness :
  ∃ st' a', YS.initDocument "r" "/yjs|r" None
              (persistent (Mem (list_to_map [("r", [1; 2]%N)]) ["r"] [] []))
              = (Fulfilled 0, st') ∧
    YS.persistence st' = Some a' ∧
    GPA.calls (GPA.env a') = [GetUpdates "r"; StoreUpdate "r" 0%N] ∧
    YS.heap st' !! 0 = Some (YS.Doc "r" "/yjs|r" true 0%N 1 false).
Proof.
  edestruct (new_room_is_empty_when_the_store_cannot_be_read (H:=engine)
               "r" "/yjs|r" None
               (persistent (Mem (list_to_map [("r", [1; 2]%N)]) ["r"] [] []))
               (GPA.new (Mem (list_to_map [("r", [1; 2]%N)]) ["r"] [] []) None))
    as (st' & a' & Hr & Hp & _ & Hc & _ & Hh & _).
  { reflexivity. }
  { reflexivity. }
  { constructor. }
  { vm_compute. reflexivity. }
  exists st', a'. split; [exact Hr|]. split; [exact Hp|]. split; [exact Hc|].
  refine (eq_trans (f_equal (λ m, m !! 0) Hh) _). vm_compute. reflexivity.
Defined.

(** The only socket of room "r" closes on a provider that cannot flush, and
    a second socket connects. *)
Lemma failed_flush_keeps_the_document_for_the_next_connection_witness :
  let st := (YS.accept (PersistenceProvider0:=no_flush) 1 "/yjs|r" ∅
               (YS.new (P:=unit) (Some (YS.Config None (Some ()) None)))).2 in
  ∃ st1 st2,
    YS.close (PersistenceProvider0:=no_flush) 1 "/yjs|r" st = (Rejected "flush", st1) ∧
    YS.accept (PersistenceProvider0:=no_flush) 2 "/yjs|r" ∅ st1 = (Fulfilled (), st2) ∧
    YS.listeners st2 !! 2 = Some 0 ∧
    YS.emitted st2 =
      [YS.DocumentLoaded 0; YS.Connection 1 0;
       YS.AllDocumentConnectionsClosed 0; YS.Connection 2 0].
Proof.
  intros st.
  edestruct (failed_flush_keeps_the_document_for_the_next_connection (H:=engine)
               (PersistenceProvider0:=no_flush) 1 "/yjs|r" 0
               (YS.Doc "r" "/yjs|r" true (0%N : @Y.Doc engine) 1 false) st ())
    as (st1 & Hcl & _ & _ & He1 & _ & Hnext).
  { vm_compute. reflexivity. }
  { vm_compute. reflexivity. }
  { reflexivity. }
  { vm_compute. reflexivity. }
  { vm_compute. reflexivity. }
  { reflexivity. }
  assert (st1 = (YS.close (PersistenceProvider0:=no_flush) 1 "/yjs|r" st).2) as Hst1
    by (by rewrite Hcl).
  destruct (Hnext 2 ∅) as (st2 & Hacc & Hl & _ & _ & _ & He2).
  { rewrite Hst1. vm_compute. reflexivity. }
  exists st1, st2. split; [exact Hcl|]. split; [exact Hacc|]. split; [exact Hl|].
  rewrite He2, He1. reflexivity.
Defined.

End MoreRuns.
